(** * Shallow embedding of the blockchain_consensus package

    Modelled files:
    - core/transaction.py, core/block.py, core/chain.py
    - consensus/base.py, pow.py, pos.py, dpos.py, pbft.py
    - network/node.py (the node record), network/simulator.py

    Conventions of the embedding.
    - Python [int] is [Z]; Python [float] is [Q] (exact arithmetic: no
      rounding, no inf/nan; pydantic rejects nan where a [ge=0] bound is set).
    - [hashlib.sha256(...).hexdigest()] and the [str()] of a float are
      supplied by the class [HashEnv]: SHA-256 is not re-implemented, and
      every result about hashes is stated for an arbitrary hash function.
    - A method call that may raise returns a [PyResult]; every outcome
      carries the objects it mutated before returning or raising.
    - [random] and [time] are inputs: an [Env] record gives the value each
      call reads from them.
    - The unbounded mining loop runs on fuel: [None] means "has not returned
      yet". *)

From Stdlib Require Import List String Ascii ZArith QArith Bool Lia
  Permutation Sorted DecimalZ Lqa.
Import ListNotations.

Local Open Scope Z_scope.

(** ** Library interface the code relies on *)

Class HashEnv := {
  sha256 : string -> string;      (** hashlib.sha256(data.encode()).hexdigest() *)
  float_str : Q -> string         (** f"{x}" for a float x *)
}.

(** Python exceptions that the modelled paths can raise. *)
Inductive PyExc :=
| IndexError
| KeyError
| ValueError
| ZeroDivisionError.

(** f"{n}" for a Python int: optional minus sign and decimal digits. *)
Fixpoint uint_str (d : Decimal.uint) : string :=
  match d with
  | Decimal.Nil => EmptyString
  | Decimal.D0 d => String "0" (uint_str d)
  | Decimal.D1 d => String "1" (uint_str d)
  | Decimal.D2 d => String "2" (uint_str d)
  | Decimal.D3 d => String "3" (uint_str d)
  | Decimal.D4 d => String "4" (uint_str d)
  | Decimal.D5 d => String "5" (uint_str d)
  | Decimal.D6 d => String "6" (uint_str d)
  | Decimal.D7 d => String "7" (uint_str d)
  | Decimal.D8 d => String "8" (uint_str d)
  | Decimal.D9 d => String "9" (uint_str d)
  end.

Definition int_str (n : Z) : string :=
  match Z.to_int n with
  | Decimal.Pos d => uint_str d
  | Decimal.Neg d => String "-" (uint_str d)
  end.

(** f"{x}" for an [Optional[str]]: [None] prints as "None". *)
Definition opt_str (o : option string) : string :=
  match o with
  | Some s => s
  | None => "None"%string
  end.

(** Python [==] between two [Optional[str]] values. *)
Definition opt_eqb (a b : option string) : bool :=
  match a, b with
  | Some x, Some y => String.eqb x y
  | None, None => true
  | _, _ => false
  end.

(** ["0" * n] (empty for n <= 0). *)
Definition str_repeat (c : ascii) (n : Z) : string :=
  string_of_list_ascii (repeat c (Z.to_nat n)).

Section Model.
Context `{HashEnv}.

(** ** core/transaction.py *)

Record Transaction := mkTransaction {
  sender : string;
  recipient : string;
  amount : Q;
  tx_timestamp : Q;
  tx_id : option string
}.

(** Transaction.compute_hash *)
Definition tx_compute_hash (tx : Transaction) : string :=
  sha256 (sender tx ++ recipient tx ++ float_str (amount tx)
          ++ float_str (tx_timestamp tx))%string.

(** Transaction(...) with model_post_init: tx_id is set once, at creation. *)
Definition new_transaction (s r : string) (a ts : Q) : Transaction :=
  let tx := mkTransaction s r a ts None in
  mkTransaction s r a ts (Some (tx_compute_hash tx)).

(** ** core/block.py *)

Record Block := mkBlock {
  index : Z;
  timestamp : Q;
  transactions : list Transaction;
  previous_hash : string;
  nonce : Z;
  validator : option string;
  hash : option string
}.

Definition set_hash (b : Block) (h : option string) : Block :=
  mkBlock (index b) (timestamp b) (transactions b) (previous_hash b)
    (nonce b) (validator b) h.

Definition set_nonce (b : Block) (n : Z) : Block :=
  mkBlock (index b) (timestamp b) (transactions b) (previous_hash b)
    n (validator b) (hash b).

Definition set_transactions (b : Block) (txs : list Transaction) : Block :=
  mkBlock (index b) (timestamp b) txs (previous_hash b)
    (nonce b) (validator b) (hash b).

(** [tx.tx_id or tx.compute_hash()]: an empty id is falsy. *)
Definition tx_hash_text (tx : Transaction) : string :=
  match tx_id tx with
  | Some s => if String.eqb s EmptyString then tx_compute_hash tx else s
  | None => tx_compute_hash tx
  end.

(** The string hashed by Block.compute_hash. *)
Definition block_data (b : Block) : string :=
  (int_str (index b) ++ float_str (timestamp b)
   ++ String.concat EmptyString (map tx_hash_text (transactions b))
   ++ previous_hash b ++ int_str (nonce b) ++ opt_str (validator b))%string.

(** Block.compute_hash *)
Definition compute_hash (b : Block) : string := sha256 (block_data b).

(** Block.mine: [while True] loop, one iteration per unit of fuel.
    Returns the hash and the mutated block. *)
Fixpoint mine (fuel : nat) (difficulty : Z) (b : Block)
  : option (string * Block) :=
  match fuel with
  | O => None
  | S fuel' =>
      let target := str_repeat "0"%char difficulty in
      let candidate_hash := compute_hash b in
      if String.prefix target candidate_hash
      then Some (candidate_hash, set_hash b (Some candidate_hash))
      else mine fuel' difficulty (set_nonce b (nonce b + 1))
  end.

(** Block.genesis *)
Definition genesis : Block :=
  let b := mkBlock 0 0 [] (str_repeat "0"%char 64) 0 (Some "genesis"%string) None in
  set_hash b (Some (compute_hash b)).

(** ** core/chain.py *)

Record Blockchain := mkBlockchain {
  chain : list Block;
  pending_transactions : list Transaction;
  difficulty : Z
}.

(** Blockchain(...) with model_post_init. *)
Definition new_blockchain (blocks : list Block) (pending : list Transaction)
  (d : Z) : Blockchain :=
  match blocks with
  | [] => mkBlockchain [genesis] pending d
  | _ => mkBlockchain blocks pending d
  end.

(** [self.chain[-1]]: IndexError on an empty list. *)
Definition latest_block (bc : Blockchain) : option Block :=
  last (map Some (chain bc)) None.

Definition height (bc : Blockchain) : Z := Z.of_nat (List.length (chain bc)).

Definition set_chain (bc : Blockchain) (c : list Block) : Blockchain :=
  mkBlockchain c (pending_transactions bc) (difficulty bc).

(** Blockchain.add_transaction *)
Definition add_transaction (bc : Blockchain) (tx : Transaction) : Blockchain :=
  mkBlockchain (chain bc) (pending_transactions bc ++ [tx])%list (difficulty bc).

(** Blockchain.add_block: [None] is the IndexError of [latest_block]. *)
Definition add_block (bc : Blockchain) (b : Block)
  : option (bool * Blockchain) :=
  match latest_block bc with
  | None => None
  | Some lb =>
      if negb (opt_eqb (Some (previous_hash b)) (hash lb)) then Some (false, bc)
      else match hash b with
           | None => Some (false, bc)
           | Some h =>
               if negb (String.eqb h (compute_hash b)) then Some (false, bc)
               else Some (true, set_chain bc (chain bc ++ [b])%list)
           end
  end.

(** Blockchain.create_next_block; [now] is the value of time.time() read by
    the Block default factory. *)
Definition create_next_block (bc : Blockchain)
  (txs_arg : option (list Transaction)) (v : option string) (now : Q)
  : option (Block * Blockchain) :=
  match latest_block bc with
  | None => None
  | Some lb =>
      let txs := match txs_arg with
                 | Some t => t
                 | None => pending_transactions bc
                 end in
      let prev := match hash lb with
                  | Some h => if String.eqb h EmptyString then EmptyString else h
                  | None => EmptyString
                  end in
      let block := mkBlock (height bc) now txs prev 0 v None in
      let bc' := match txs_arg with
                 | Some _ => bc
                 | None => mkBlockchain (chain bc) [] (difficulty bc)
                 end in
      Some (block, bc')
  end.

(** Blockchain.is_valid: the loop [for i in range(1, len(self.chain))]. *)
Fixpoint is_valid_from (previous : Block) (rest : list Block) : bool :=
  match rest with
  | [] => true
  | current :: rest' =>
      if negb (opt_eqb (hash current) (Some (compute_hash current))) then false
      else if negb (opt_eqb (Some (previous_hash current)) (hash previous)) then false
      else is_valid_from current rest'
  end.

Definition is_valid (bc : Blockchain) : bool :=
  match chain bc with
  | [] => true
  | b0 :: rest => is_valid_from b0 rest
  end.

End Model.

(** ** Python list and dict helpers *)

(** [x[i] = v] on a list; out of range the model leaves the list alone
    (the modelled code only writes in range). *)
Fixpoint list_set {A} (l : list A) (i : nat) (v : A) : list A :=
  match l, i with
  | [], _ => []
  | _ :: t, O => v :: t
  | x :: t, S i' => x :: list_set t i' v
  end.

(** [x[i], x[j] = x[j], x[i]] *)
Definition swap {A} (d : A) (x : list A) (i j : nat) : list A :=
  let xi := nth i x d in
  let xj := nth j x d in
  list_set (list_set x i xj) j xi.

(** [d[k] = v] on a dict kept as an association list in insertion order. *)
Fixpoint dict_insert {A} (k : string) (v : A) (d : list (string * A))
  : list (string * A) :=
  match d with
  | [] => [(k, v)]
  | (k', v') :: t => if String.eqb k k' then (k, v) :: t
                     else (k', v') :: dict_insert k v t
  end.

(** A dict comprehension [{k: v for ...}] over the pairs, in order. *)
Definition dict_of_list {A} (l : list (string * A)) : list (string * A) :=
  fold_left (fun d kv => dict_insert (fst kv) (snd kv) d) l [].

(** [d[k]] / [d.get(k)] *)
Fixpoint dict_get {A} (k : string) (d : list (string * A)) : option A :=
  match d with
  | [] => None
  | (k', v) :: t => if String.eqb k k' then Some v else dict_get k t
  end.

(** [k in d] *)
Definition dict_mem {A} (k : string) (d : list (string * A)) : bool :=
  match dict_get k d with Some _ => true | None => false end.

(** ** consensus/base.py *)

(** The f-string [message] of a result, kept as its template and the
    values it formats. *)
Inductive Message :=
| MsgNoMiners
| MsgPoW (miner : string) (nonce : Z) (elapsed : Q) (difficulty : Z) (index : Z)
| MsgNoValidators
| MsgPoS (proposer : string) (stake : Q) (age : Z) (index : Z)
| MsgNoDelegates
| MsgDPoS (delegate : string) (votes : option Q) (index : Z) (slot : Z)
| MsgPBFTReached (leader : string) (prepares commits : Z) (f n : Z) (index : Z)
| MsgPBFTFailed (committed quorum : Z) (f n : Z).

Record ConsensusResult := mkResult {
  success : bool;
  block : option Block;
  proposer : option string;
  rounds : Z;
  message : Message
}.

(** [ConsensusResult(success=False, message=m)] with its defaults. *)
Definition failure (m : Message) : ConsensusResult := mkResult false None None 1 m.

(** What one call of [run_round] reads from [time] and [random]. *)
Record Env := mkEnv {
  env_now : Q;          (** time.time() read by the new Block *)
  env_randbelow : nat;  (** random._randbelow(n), taken modulo n *)
  env_random : Q;       (** random.random(), in [0, 1) *)
  env_elapsed : Q       (** the mining time measured by PoW *)
}.

(** Outcome of a call on a protocol with state [S]: it returns, it raises,
    or (mining only) it has not returned within the fuel. *)
Inductive PyResult (S : Type) :=
| Returned (r : ConsensusResult) (st : S) (bc : Blockchain)
| Raised (e : PyExc) (st : S) (bc : Blockchain)
| Running.
Arguments Returned {S}.
Arguments Raised {S}.
Arguments Running {S}.

(** [random.choice(seq)]: [seq[_randbelow(len(seq))]], IndexError if empty. *)
Definition py_choice {A} (l : list A) (r : nat) : option A :=
  nth_error l (Nat.modulo r (List.length l)).

(** ** consensus/pow.py *)

Module PoW.

Record ProofOfWork := mkPoW { difficulty : Z }.

Section PoW.
Context `{HashEnv}.

(** ProofOfWork.run_round *)
Definition run_round (fuel : nat) (st : ProofOfWork) (bc : Blockchain)
  (transactions : list Transaction) (nodes : list string) (env : Env)
  : PyResult ProofOfWork :=
  match nodes with
  | [] => Returned (failure MsgNoMiners) st bc
  | _ =>
    match py_choice nodes (env_randbelow env) with
    | None => Raised IndexError st bc
    | Some miner =>
      match create_next_block bc (Some transactions) (Some miner) (env_now env) with
      | None => Raised IndexError st bc
      | Some (blk, bc1) =>
        match mine fuel (difficulty st) blk with
        | None => Running
        | Some (_, blk') =>
          match add_block bc1 blk' with
          | None => Raised IndexError st bc1
          | Some (added, bc2) =>
            Returned (mkResult added (Some blk') (Some miner) 1
                        (MsgPoW miner (nonce blk') (env_elapsed env)
                           (difficulty st) (index blk'))) st bc2
          end
        end
      end
    end
  end.

End PoW.
End PoW.

(** ** consensus/pos.py *)

(** Python [<] on floats. *)
Definition Qlt_bool (x y : Q) : bool := negb (Qle_bool y x).

(** [itertools.accumulate] *)
Fixpoint accumulate (acc : Q) (ws : list Q) : list Q :=
  match ws with
  | [] => []
  | w :: t => (acc + w)%Q :: accumulate (acc + w)%Q t
  end.

(** [bisect.bisect_right(a, x, lo, hi)], the binary search as CPython runs
    it (it does not assume [a] sorted); [fuel] bounds the iterations, and
    [hi - lo + 1] units always suffice. *)
Fixpoint bisect_right (fuel : nat) (a : list Q) (x : Q) (lo hi : nat) : nat :=
  match fuel with
  | O => lo
  | S fuel' =>
    if Nat.ltb lo hi then
      let mid := Nat.div (lo + hi) 2 in
      if Qlt_bool x (nth mid a 0%Q) then bisect_right fuel' a x lo mid
      else bisect_right fuel' a x (S mid) hi
    else lo
  end.

(** [random.choices(population, weights=weights, k=1)[0]]; [u] is the
    random() draw.  [None] is the ValueError raised when the total weight
    is not positive. *)
Definition py_choices {A} (population : list A) (weights : list Q) (u : Q)
  : option A :=
  let n := List.length population in
  let cum_weights := accumulate 0 weights in
  if negb (Nat.eqb (List.length cum_weights) n) then None else
  let total := last cum_weights 0%Q in
  if Qle_bool total 0 then None else
  let hi := Nat.pred n in
  nth_error population (bisect_right (S hi) cum_weights (u * total)%Q 0 hi).

Module PoS.

Record StakeInfo := mkStakeInfo {
  address : string;
  stake : Q;
  age : Z
}.

Record ProofOfStake := mkPoS {
  validators : list (string * StakeInfo);
  age_factor : Q
}.

(** ProofOfStake.__init__: [stakes] is the dict's items in order; pydantic
    rejects a negative stake ([ge=0]) with a ValidationError, a ValueError. *)
Definition init (stakes : list (string * Q)) (af : Q) : PyExc + ProofOfStake :=
  if existsb (fun kv => Qlt_bool (snd kv) 0) stakes then inl ValueError
  else inr (mkPoS (dict_of_list (map (fun kv => (fst kv, mkStakeInfo (fst kv) (snd kv) 0))
                                     stakes)) af).

(** [stake * (1.0 + age_factor * age)] *)
Definition effective (af : Q) (info : StakeInfo) : Q :=
  (stake info * (1 + af * inject_Z (age info)))%Q.

(** ProofOfStake._select_validator; [None] is a raised ValueError. *)
Definition select_validator (st : ProofOfStake) (env : Env) : option string :=
  let weights := map (fun kv => effective (age_factor st) (snd kv)) (validators st) in
  let addresses := map (fun kv => address (snd kv)) (validators st) in
  let total := fold_left Qplus weights 0%Q in
  if Qeq_bool total 0 then py_choice addresses (env_randbelow env)
  else py_choices addresses weights (env_random env).

(** The loop run after a successful append: reset the proposer's age,
    increment every other validator's. *)
Definition update_ages (prop : string) (vs : list (string * StakeInfo))
  : list (string * StakeInfo) :=
  map (fun kv =>
         let v := snd kv in
         if String.eqb (fst kv) prop
         then (fst kv, mkStakeInfo (address v) (stake v) 0)
         else (fst kv, mkStakeInfo (address v) (stake v) (age v + 1)))
      vs.

Section PoS.
Context `{HashEnv}.

(** ProofOfStake.run_round.  [info] aliases the dict entry, so the message
    shows the age after the update. *)
Definition run_round (st : ProofOfStake) (bc : Blockchain)
  (transactions : list Transaction) (nodes : list string) (env : Env)
  : PyResult ProofOfStake :=
  match validators st with
  | [] => Returned (failure MsgNoValidators) st bc
  | _ =>
    match select_validator st env with
    | None => Raised ValueError st bc
    | Some prop =>
      match dict_get prop (validators st) with
      | None => Raised KeyError st bc
      | Some _ =>
        match create_next_block bc (Some transactions) (Some prop) (env_now env) with
        | None => Raised IndexError st bc
        | Some (blk0, bc1) =>
          let blk := set_hash blk0 (Some (compute_hash blk0)) in
          match add_block bc1 blk with
          | None => Raised IndexError st bc1
          | Some (added, bc2) =>
            let st' := if added
                       then mkPoS (update_ages prop (validators st)) (age_factor st)
                       else st in
            let info := match dict_get prop (validators st') with
                        | Some i => i
                        | None => mkStakeInfo prop 0 0
                        end in
            Returned (mkResult added (Some blk) (Some prop) 1
                        (MsgPoS prop (stake info) (age info) (index blk))) st' bc2
          end
        end
      end
    end
  end.

End PoS.
End PoS.

(** ** consensus/dpos.py *)

(** [seq[:k]] for a Python int [k]. *)
Definition py_slice_to {A} (l : list A) (k : Z) : list A :=
  if Z.leb 0 k then firstn (Z.to_nat k) l
  else firstn (Z.to_nat (Z.of_nat (List.length l) + k)) l.

(** [random.shuffle(x)]:
    [for i in reversed(range(1, len(x))): j = _randbelow(i + 1); x[i], x[j] = x[j], x[i]];
    [js] are the successive [_randbelow] draws, taken modulo [i + 1]. *)
Fixpoint shuffle_steps {A} (d : A) (i : nat) (js : list nat) (x : list A) : list A :=
  match i with
  | O => x
  | S i' =>
    let j := Nat.modulo (hd O js) (S i) in
    shuffle_steps d i' (tl js) (swap d x i j)
  end.

Definition shuffle {A} (d : A) (js : list nat) (x : list A) : list A :=
  shuffle_steps d (Nat.pred (List.length x)) js x.

Module DPoS.

Record Delegate := mkDelegate {
  address : string;
  votes : Q;
  blocks_produced : Z
}.

Record DelegatedProofOfStake := mkDPoS {
  candidates : list (string * Delegate);
  num_delegates : Z;
  active_delegates : list string;
  round_index : Z
}.

(** One insertion step of [sorted(..., key=lambda d: d.votes, reverse=True)]:
    stable, so [d] goes after every delegate with at least its votes. *)
Fixpoint insert_desc (d : Delegate) (l : list Delegate) : list Delegate :=
  match l with
  | [] => [d]
  | x :: t => if Qle_bool (votes d) (votes x) then x :: insert_desc d t
              else d :: l
  end.

Definition sort_by_votes_desc (l : list Delegate) : list Delegate :=
  fold_left (fun acc d => insert_desc d acc) l [].

(** DelegatedProofOfStake._elect_delegates; [js] feeds random.shuffle. *)
Definition elect_delegates (cands : list (string * Delegate)) (num : Z)
  (js : list nat) : list string :=
  let sorted_candidates := sort_by_votes_desc (map snd cands) in
  shuffle EmptyString js (map address (py_slice_to sorted_candidates num)).

(** DelegatedProofOfStake.__init__: [votes] is the dict's items in order. *)
Definition init (vs : list (string * Q)) (num : Z) (js : list nat)
  : DelegatedProofOfStake :=
  let cands := dict_of_list (map (fun kv => (fst kv, mkDelegate (fst kv) (snd kv) 0)) vs) in
  mkDPoS cands num (elect_delegates cands num js) 0.

(** DelegatedProofOfStake._current_delegate *)
Definition current_delegate (st : DelegatedProofOfStake) : option string :=
  match active_delegates st with
  | [] => None
  | ad => nth_error ad (Z.to_nat (round_index st mod Z.of_nat (List.length ad)))
  end.

(** [self.candidates[delegate].blocks_produced += 1] *)
Definition bump_produced (dlg : string) (cs : list (string * Delegate))
  : list (string * Delegate) :=
  map (fun kv => if String.eqb (fst kv) dlg
                 then (fst kv, mkDelegate (address (snd kv)) (votes (snd kv))
                                 (blocks_produced (snd kv) + 1))
                 else kv) cs.

Section DPoS.
Context `{HashEnv}.

(** DelegatedProofOfStake.run_round *)
Definition run_round (st : DelegatedProofOfStake) (bc : Blockchain)
  (transactions : list Transaction) (nodes : list string) (env : Env)
  : PyResult DelegatedProofOfStake :=
  match current_delegate st with
  | None => Returned (failure MsgNoDelegates) st bc
  | Some dlg =>
    match create_next_block bc (Some transactions) (Some dlg) (env_now env) with
    | None => Raised IndexError st bc
    | Some (blk0, bc1) =>
      let blk := set_hash blk0 (Some (compute_hash blk0)) in
      match add_block bc1 blk with
      | None => Raised IndexError st bc1
      | Some (added, bc2) =>
        let cands := if added && dict_mem dlg (candidates st)
                     then bump_produced dlg (candidates st) else candidates st in
        let st' := mkDPoS cands (num_delegates st) (active_delegates st)
                     (round_index st + 1) in
        let delegate_info := dict_get dlg cands in
        Returned (mkResult added (Some blk) (Some dlg) 1
                    (MsgDPoS dlg (option_map votes delegate_info) (index blk)
                       ((round_index st' - 1)
                          mod Z.of_nat (List.length (active_delegates st)))))
                 st' bc2
      end
    end
  end.

End DPoS.
End DPoS.

(** ** consensus/pbft.py *)

(** [random.sample(population, k)], CPython's pool variant:
    [pool[j]] is taken then overwritten by [pool[n - i - 1]]; [js] are the
    [_randbelow(n - i)] draws.  (For populations larger than CPython's
    [setsize] it instead redraws distinct positions; both variants return
    [k] entries at distinct positions.)  [None] is the ValueError raised
    unless [0 <= k <= n]. *)
Fixpoint sample_pool {A} (d : A) (steps n i : nat) (js : list nat) (pool : list A)
  : list A :=
  match steps with
  | O => []
  | S s =>
    let j := Nat.modulo (hd O js) (n - i) in
    nth j pool d
      :: sample_pool d s n (S i) (tl js) (list_set pool j (nth (n - i - 1) pool d))
  end.

Definition random_sample {A} (d : A) (population : list A) (k : Z) (js : list nat)
  : option (list A) :=
  let n := List.length population in
  if Z.leb 0 k && Z.leb k (Z.of_nat n)
  then Some (sample_pool d (Z.to_nat k) n 0 js population)
  else None.

(** [set.add] on a set kept as a duplicate-free list. *)
Definition set_add (x : string) (s : list string) : list string :=
  if existsb (String.eqb x) s then s else s ++ [x].

Module PBFT.

Record PBFTNode := mkNode {
  address : string;
  is_byzantine : bool;
  prepares_received : list string;
  commits_received : list string;
  prepared : bool;
  committed : bool
}.

Record PracticalBFT := mkPBFT {
  node_list : list string;
  byzantine_count : Z;
  view : Z;
  pbft_nodes : list (string * PBFTNode)
}.

(** PracticalBFT.__init__; [js] feeds random.sample. *)
Definition init (nodes : list string) (byzantine_nodes : Z) (js : list nat)
  : PyExc + PracticalBFT :=
  if Z.gtb byzantine_nodes ((Z.of_nat (List.length nodes) - 1) / 3)
  then inl ValueError
  else match random_sample EmptyString nodes byzantine_nodes js with
       | None => inl ValueError
       | Some byz =>
         inr (mkPBFT nodes byzantine_nodes 0
                (dict_of_list
                   (map (fun a => (a, mkNode a (existsb (String.eqb a) byz)
                                         [] [] false false)) nodes)))
       end.

(** PracticalBFT._quorum *)
Definition quorum (st : PracticalBFT) : Z := 2 * byzantine_count st + 1.

Definition map_nodes (g : PBFTNode -> PBFTNode) (st : PracticalBFT) : PracticalBFT :=
  mkPBFT (node_list st) (byzantine_count st) (view st)
    (map (fun kv => (fst kv, g (snd kv))) (pbft_nodes st)).

Definition set_view (st : PracticalBFT) (v : Z) : PracticalBFT :=
  mkPBFT (node_list st) (byzantine_count st) v (pbft_nodes st).

(** PracticalBFT._reset_round *)
Definition reset_round (st : PracticalBFT) : PracticalBFT :=
  map_nodes (fun nd => mkNode (address nd) (is_byzantine nd) [] [] false false) st.

(** PracticalBFT._phase_prepare: the senders of the PREPARE messages. *)
Definition phase_prepare (st : PracticalBFT) : list string :=
  map (fun kv => address (snd kv))
      (filter (fun kv => negb (is_byzantine (snd kv))) (pbft_nodes st)).

(** The loop adding every PREPARE sender to every node's received set. *)
Definition distribute_prepares (senders : list string) (st : PracticalBFT)
  : PracticalBFT :=
  map_nodes (fun nd => mkNode (address nd) (is_byzantine nd)
                         (fold_left (fun s x => set_add x s) senders (prepares_received nd))
                         (commits_received nd) (prepared nd) (committed nd)) st.

(** PracticalBFT._phase_commit: honest nodes holding a quorum of PREPAREs
    become prepared and send COMMIT. *)
Definition commit_ready (q : Z) (nd : PBFTNode) : bool :=
  negb (is_byzantine nd) && Z.leb q (Z.of_nat (List.length (prepares_received nd))).

Definition phase_commit (st : PracticalBFT) : list string * PracticalBFT :=
  let q := quorum st in
  (map (fun kv => address (snd kv)) (filter (fun kv => commit_ready q (snd kv)) (pbft_nodes st)),
   map_nodes (fun nd => if commit_ready q nd
                        then mkNode (address nd) (is_byzantine nd) (prepares_received nd)
                               (commits_received nd) true (committed nd)
                        else nd) st).

(** The loop adding every COMMIT sender to every node's received set. *)
Definition distribute_commits (senders : list string) (st : PracticalBFT)
  : PracticalBFT :=
  map_nodes (fun nd => mkNode (address nd) (is_byzantine nd) (prepares_received nd)
                         (fold_left (fun s x => set_add x s) senders (commits_received nd))
                         (prepared nd) (committed nd)) st.

(** [committed_count] *)
Definition committed_count (st : PracticalBFT) : Z :=
  Z.of_nat (List.length
    (filter (fun kv => Z.leb (quorum st) (Z.of_nat (List.length (commits_received (snd kv))))
                       && negb (is_byzantine (snd kv))) (pbft_nodes st))).

Section PBFT.
Context `{HashEnv}.

(** PracticalBFT.run_round *)
Definition run_round (st : PracticalBFT) (bc : Blockchain)
  (transactions : list Transaction) (nodes : list string) (env : Env)
  : PyResult PracticalBFT :=
  let st1 := reset_round st in
  let n := Z.of_nat (List.length (node_list st1)) in
  let f := byzantine_count st1 in
  if Z.eqb n 0 then Raised ZeroDivisionError st1 bc else
  let leader := nth (Z.to_nat (view st1 mod n)) (node_list st1) EmptyString in
  match create_next_block bc (Some transactions) (Some leader) (env_now env) with
  | None => Raised IndexError st1 bc
  | Some (blk0, bc1) =>
    let block_hash := compute_hash blk0 in
    let blk := set_hash blk0 (Some block_hash) in
    let prepare_msgs := phase_prepare st1 in
    let st2 := distribute_prepares prepare_msgs st1 in
    let '(commit_msgs, st3) := phase_commit st2 in
    let st4 := distribute_commits commit_msgs st3 in
    let cc := committed_count st4 in
    let total_phases := 3 in
    if Z.leb (quorum st4) cc then
      match add_block bc1 blk with
      | None => Raised IndexError st4 bc1
      | Some (added, bc2) =>
        Returned (mkResult added (Some blk) (Some leader) total_phases
                    (MsgPBFTReached leader (Z.of_nat (List.length prepare_msgs))
                       (Z.of_nat (List.length commit_msgs)) f n (index blk)))
                 (set_view st4 (view st4 + 1)) bc2
      end
    else
      Returned (mkResult false None (Some leader) total_phases
                  (MsgPBFTFailed cc (quorum st4) f n))
               (set_view st4 (view st4 + 1)) bc1
  end.

End PBFT.
End PBFT.

(** ** network/node.py, network/simulator.py *)

Module Sim.

(** NetworkNode *)
Record NetworkNode := mkNode {
  address : string;
  balance : Q;
  stake : Q;
  is_active : bool;
  blocks_produced : Z;
  blockchain : option Blockchain
}.

(** [node.blocks_produced += 1] *)
Definition bump (nd : NetworkNode) : NetworkNode :=
  mkNode (address nd) (balance nd) (stake nd) (is_active nd) (blocks_produced nd + 1)
    (blockchain nd).

Record SimulationConfig := mkConfig {
  num_rounds : Z;
  txs_per_round : Z;
  random_seed : option Z
}.

(** [SimulationConfig()] *)
Definition default_config : SimulationConfig := mkConfig 5 3 None.

Record RoundResult := mkRoundResult {
  round_number : Z;
  consensus_result : ConsensusResult;
  chain_height : Z;
  pending_txs : Z
}.

Record SimulationReport := mkReport {
  algorithm : string;
  config : SimulationConfig;
  rounds : list RoundResult;
  final_chain_height : Z;
  successful_rounds : Z;
  failed_rounds : Z;
  total_transactions_processed : Z
}.

(** What one generated transaction reads from [random] and [time]. *)
Record TxDraw := mkTxDraw {
  draw_sample : list nat;  (** the _randbelow draws of random.sample(self.nodes, 2) *)
  draw_amount : Q;         (** round(random.uniform(0.1, 10.0), 2) *)
  draw_time : Q            (** time.time() read by the Transaction default factory *)
}.

(** What round [i] of [run] reads: the draws of the [k]-th generated
    transaction, and the clock and draws of the [run_round] call.  A
    [random_seed] fixes these values; the model takes them as given. *)
Definition RoundInputs := Z -> (nat -> TxDraw) * Env.

(** Outcome of [run]: the report, or the exception it propagates, or (PoW
    only) no return within the mining fuel; each carries the mutated nodes,
    protocol state and chain. *)
Inductive SimOutcome (St : Type) :=
| SimReturned (rep : SimulationReport) (nodes : list NetworkNode) (st : St) (bc : Blockchain)
| SimRaised (e : PyExc) (nodes : list NetworkNode) (st : St) (bc : Blockchain)
| SimRunning.
Arguments SimReturned {St}.
Arguments SimRaised {St}.
Arguments SimRunning {St}.

(** The loop of [run] after its last round, or the exception it stopped on. *)
Inductive LoopOutcome (St : Type) :=
| LoopDone (nodes : list NetworkNode) (st : St) (bc : Blockchain) (total_txs : Z)
    (rounds : list RoundResult)
| LoopRaised (e : PyExc) (nodes : list NetworkNode) (st : St) (bc : Blockchain)
| LoopRunning.
Arguments LoopDone {St}.
Arguments LoopRaised {St}.
Arguments LoopRunning {St}.

(** A placeholder node, never read: [nth] needs a default. *)
Definition no_node : NetworkNode := mkNode EmptyString 0 0 false 0 None.

(** The loop over the nodes run after a successful round:
    [if node.address == result.proposer: node.blocks_produced += 1]. *)
Definition credit (p : option string) (nodes : list NetworkNode) : list NetworkNode :=
  map (fun nd => if opt_eqb (Some (address nd)) p then bump nd else nd) nodes.

Section Sim.
Context `{HashEnv}.

(** NetworkSimulator._generate_transactions.  With at least two nodes,
    [random.sample(self.nodes, 2)] cannot raise; the amount is positive, so
    the Transaction validator accepts it. *)
Definition generate_transactions (nodes : list NetworkNode) (count : Z)
  (draws : nat -> TxDraw) : list Transaction :=
  if Nat.ltb (List.length nodes) 2 then [] else
  map (fun k =>
         let d := draws k in
         let pair := sample_pool no_node 2 (List.length nodes) 0 (draw_sample d) nodes in
         new_transaction (address (nth 0 pair no_node)) (address (nth 1 pair no_node))
           (draw_amount d) (draw_time d))
      (seq 0 (Z.to_nat count)).

(** The [for i in range(1, config.num_rounds + 1)] loop of
    NetworkSimulator.run; [k] rounds are left, [i] is the current one. *)
Fixpoint run_loop {St}
  (run_round : St -> Blockchain -> list Transaction -> list string -> Env -> PyResult St)
  (inputs : RoundInputs) (txs_per_round : Z) (node_addresses : list string)
  (k : nat) (i : Z) (nodes : list NetworkNode) (st : St) (bc : Blockchain)
  (total_txs : Z) (rounds : list RoundResult) : LoopOutcome St :=
  match k with
  | O => LoopDone nodes st bc total_txs rounds
  | S k' =>
    let '(draws, env) := inputs i in
    let txs := generate_transactions nodes txs_per_round draws in
    match run_round st bc txs node_addresses env with
    | Returned result st' bc' =>
      let total' := if success result
                     then total_txs + Z.of_nat (List.length txs) else total_txs in
      let nodes' := if success result then credit (proposer result) nodes else nodes in
      run_loop run_round inputs txs_per_round node_addresses k' (i + 1) nodes' st' bc'
        total'
        (rounds ++ [mkRoundResult i result (height bc')
                      (Z.of_nat (List.length (pending_transactions bc')))])%list
    | Raised e st' bc' => LoopRaised e nodes st' bc'
    | Running => LoopRunning
    end
  end.

(** NetworkSimulator.run on a simulator holding [name] (the protocol's
    [name]), its [run_round], [nodes] and [bc]. *)
Definition run {St} (name : string)
  (run_round : St -> Blockchain -> list Transaction -> list string -> Env -> PyResult St)
  (nodes : list NetworkNode) (st : St) (bc : Blockchain)
  (config_arg : option SimulationConfig) (inputs : RoundInputs) : SimOutcome St :=
  let config := match config_arg with Some c => c | None => default_config end in
  let node_addresses := map address (filter is_active nodes) in
  match run_loop run_round inputs (txs_per_round config) node_addresses
          (Z.to_nat (num_rounds config)) 1 nodes st bc 0 [] with
  | LoopDone nodes' st' bc' total_txs rounds =>
    let successful :=
      Z.of_nat (List.length (filter (fun r => success (consensus_result r)) rounds)) in
    SimReturned (mkReport name config rounds (height bc') successful
                   (Z.of_nat (List.length rounds) - successful) total_txs)
                nodes' st' bc'
  | LoopRaised e nodes' st' bc' => SimRaised e nodes' st' bc'
  | LoopRunning => SimRunning
  end.

End Sim.
End Sim.

(** ** A concrete hash interface, to run the model on examples

    [toy_sha256] is not SHA-256: it prepends to its input the last decimal
    digit of the sum of its character codes, which keeps it injective and
    lets mining find a leading ['0'] after a few nonces. *)

Definition char_sum (s : string) : Z :=
  fold_left (fun acc c => acc + Z.of_nat (nat_of_ascii c)) (list_ascii_of_string s) 0.

Definition toy_sha256 (s : string) : string :=
  (int_str (char_sum s mod 10) ++ s)%string.

Definition toy_float_str (q : Q) : string :=
  (int_str (Qnum q) ++ "/" ++ int_str (Zpos (Qden q)))%string.

#[export] Instance toy_env : HashEnv := {| sha256 := toy_sha256; float_str := toy_float_str |}.

Definition tx1 : Transaction := new_transaction "alice" "bob" 5 1.
Definition tx2 : Transaction := new_transaction "bob" "carol" 2 2.
Definition env0 : Env := mkEnv 10 1 (1 # 2) 0.
Definition chain0 : Blockchain := new_blockchain [] [] 2.

(** [b] with [b.hash = b.compute_hash()]. *)
Definition hashed (b : Block) : Block := set_hash b (Some (compute_hash b)).

(** Blocks linked to the genesis block of [chain0]: index 1, and index 7. *)
Definition blk1 : Block :=
  hashed (mkBlock 1 3 [tx1] (opt_str (hash genesis)) 0 (Some "v1"%string) None).
Definition blk7 : Block :=
  hashed (mkBlock 7 3 [tx1] (opt_str (hash genesis)) 0 (Some "v1"%string) None).
Definition chain1 : Blockchain := set_chain chain0 (chain chain0 ++ [blk1])%list.

(** [tx1] after [tx.amount = 500]: its [tx_id] is the one set at creation. *)
Definition tx1_edited : Transaction :=
  mkTransaction (sender tx1) (recipient tx1) 500 (tx_timestamp tx1) (tx_id tx1).

(** A chain whose only block has no hash. *)
Definition chain_unhashed : Blockchain :=
  new_blockchain [mkBlock 0 0 [] EmptyString 0 None None] [] 2.

Definition nodes7 : list string :=
  ["n1"; "n2"; "n3"; "n4"; "n5"; "n6"; "n7"]%string.
Definition votes4 : list (string * Q) :=
  [("d1", 40); ("d2", 30); ("d3", 20); ("d4", 10)]%string%Q.
Definition env_pos : Env := mkEnv 10 0 (1 # 4) 0.
Definition nodes4 : list string := ["a"; "b"; "c"; "d"]%string.

(** Three active simulator nodes; every generated transaction samples
    positions 0 then 0 and carries amount 1 and time 1, and every round
    runs its protocol with [env0]. *)
Definition sim_nodes3 : list Sim.NetworkNode :=
  [Sim.mkNode "d1" 100 0 true 0 None; Sim.mkNode "d2" 100 0 true 0 None;
   Sim.mkNode "d3" 100 0 true 0 None]%string.
Definition inputs0 : Sim.RoundInputs := fun _ => (fun _ => Sim.mkTxDraw [0; 0]%nat 1 1, env0).
Definition config2 : Sim.SimulationConfig := Sim.mkConfig 2 2 None.

(** ** Sequences of rounds

    The orchestrator (out of the modelled core) calls [run_round] again and
    again on the same chain; [step] is one call with its transactions and
    nodes fixed.  [run_seq] stops after a call that does not return. *)

Fixpoint run_seq {S} (step : S -> Blockchain -> Env -> PyResult S) (st : S)
  (bc : Blockchain) (envs : list Env) : list (PyResult S) :=
  match envs with
  | [] => []
  | e :: es =>
    let o := step st bc e in
    o :: match o with
         | Returned _ st' bc' => run_seq step st' bc' es
         | _ => []
         end
  end.

(** The proposer reported by an outcome. *)
Definition outcome_proposer {S} (o : PyResult S) : option string :=
  match o with
  | Returned r _ _ => proposer r
  | _ => None
  end.

(** States of a protocol reachable from [st0] by calls of [run_round] that
    return or raise (a raising call keeps what it mutated). *)
Inductive reach {S}
  (run : S -> Blockchain -> list Transaction -> list string -> Env -> PyResult S)
  (st0 : S) : S -> Prop :=
| reach_init : reach run st0 st0
| reach_returned st bc txs nodes env r st' bc' :
    reach run st0 st -> run st bc txs nodes env = Returned r st' bc' ->
    reach run st0 st'
| reach_raised st bc txs nodes env e st' bc' :
    reach run st0 st -> run st bc txs nodes env = Raised e st' bc' ->
    reach run st0 st'.

(** ** Outcome predicates used by the statements *)

(** Section 4.3 of the spec: a call either appends exactly one block and
    reports success, or leaves the chain as it was and reports failure; a
    call that raises leaves the chain as it was. *)
Definition side_effect_consistent {S} (bc : Blockchain) (o : PyResult S) : Prop :=
  match o with
  | Returned r _ bc' =>
      (success r = true /\ exists b, bc' = set_chain bc (chain bc ++ [b])%list) \/
      (success r = false /\ bc' = bc)
  | Raised _ _ bc' => bc' = bc
  | Running => True
  end.

(** The [block] field of a returned result: a successful result carries the
    appended block; a failed one leaves the chain as it was, and any block
    it carries is one [add_block] rejects. *)
Definition block_reported `{HashEnv} {S} (bc : Blockchain) (o : PyResult S) : Prop :=
  match o with
  | Returned r _ bc' =>
      (success r = true ->
         exists b, block r = Some b /\ bc' = set_chain bc (chain bc ++ [b])%list) /\
      (success r = false ->
         bc' = bc /\ forall b, block r = Some b -> add_block bc b = Some (false, bc))
  | _ => True
  end.

(** How every run_round ends: a returned result either carries no block,
    failed, and left the chain alone, or carries the block whose
    [add_block] produced both the success flag and the new chain. *)
Definition round_shape `{HashEnv} {S} (bc : Blockchain) (o : PyResult S) : Prop :=
  match o with
  | Returned r _ bc' =>
      (block r = None /\ success r = false /\ bc' = bc) \/
      (exists b, block r = Some b /\ add_block bc b = Some (success r, bc'))
  | Raised _ _ bc' => bc' = bc
  | Running => True
  end.

(** The part of a PBFT state fixed at construction: the PREPARE senders
    (addresses of the honest nodes, in dict order), [f] and the node list. *)
Definition roster (st : PBFT.PracticalBFT) : list string * Z * list string :=
  (PBFT.phase_prepare st, PBFT.byzantine_count st, PBFT.node_list st).

(** The chain an outcome leaves behind ([None] while mining has not
    returned). *)
Definition outcome_chain {S} (o : PyResult S) : option Blockchain :=
  match o with
  | Returned _ _ bc' | Raised _ _ bc' => Some bc'
  | Running => None
  end.

(** * Properties *)

Section Properties.
Context `{HashEnv}.

(** ** Facts about the helpers *)

Lemma opt_eqb_true (a b : option string) : opt_eqb a b = true <-> a = b.
Proof.
  destruct a as [x|], b as [y|]; simpl; split; intro E; try congruence.
  - apply String.eqb_eq in E; congruence.
  - inversion E; apply String.eqb_refl.
Qed.

Lemma opt_eqb_false (a b : option string) : opt_eqb a b = false <-> a <> b.
Proof.
  rewrite <- opt_eqb_true. destruct (opt_eqb a b); split; congruence.
Qed.

Lemma prefix_spec (s1 s2 : string) :
  String.prefix s1 s2 = true -> exists rest, s2 = (s1 ++ rest)%string.
Proof.
  revert s2; induction s1 as [|a s1 IH]; intros s2 Hp.
  - exists s2; reflexivity.
  - destruct s2 as [|c s2]; simpl in Hp; [discriminate|].
    destruct (ascii_dec a c) as [->|]; [|discriminate].
    destruct (IH s2 Hp) as [rest ->]. exists rest; reflexivity.
Qed.

Lemma prefix_empty (s : string) : String.prefix EmptyString s = true.
Proof. destruct s; reflexivity. Qed.

Lemma compute_hash_set_hash (b : Block) (h : option string) :
  compute_hash (set_hash b h) = compute_hash b.
Proof. reflexivity. Qed.

Lemma latest_block_snoc (bc : Blockchain) (b : Block) :
  latest_block (set_chain bc (chain bc ++ [b])%list) = Some b.
Proof.
  unfold latest_block; simpl. rewrite map_app. apply last_last.
Qed.

Lemma latest_block_nonempty (bc : Blockchain) :
  chain bc <> [] -> exists lb, latest_block bc = Some lb.
Proof.
  unfold latest_block. destruct (chain bc) as [|b l] using rev_ind; [congruence|].
  intros _. exists b. rewrite map_app. apply last_last.
Qed.

Lemma latest_block_in (bc : Blockchain) (lb : Block) :
  latest_block bc = Some lb -> chain bc <> [].
Proof. unfold latest_block; destruct (chain bc); simpl; congruence. Qed.

(** A block just drafted by [create_next_block] and stamped with its own
    hash passes the gate exactly when the tip has a hash. *)
Lemma add_block_fresh (bc : Blockchain) txs v now blk0 bc1 :
  create_next_block bc (Some txs) v now = Some (blk0, bc1) ->
  bc1 = bc /\
  exists lb, latest_block bc = Some lb /\
  add_block bc (set_hash blk0 (Some (compute_hash blk0))) =
    Some (match hash lb with Some _ => true | None => false end,
          match hash lb with
          | Some _ => set_chain bc (chain bc ++ [set_hash blk0 (Some (compute_hash blk0))])%list
          | None => bc
          end).
Proof.
  unfold create_next_block. destruct (latest_block bc) as [lb|] eqn:El; [|discriminate].
  intros E; inversion E; subst; clear E. split; [reflexivity|].
  exists lb; split; [reflexivity|].
  unfold add_block; rewrite El; simpl.
  destruct (hash lb) as [h|] eqn:Eh; simpl.
  - destruct (String.eqb h EmptyString) eqn:He.
    + apply String.eqb_eq in He; subst; simpl. rewrite String.eqb_refl. reflexivity.
    + simpl. rewrite String.eqb_refl. simpl. rewrite String.eqb_refl. reflexivity.
  - reflexivity.
Qed.

(** ** Blockchain.add_block *)

(** C2. Admission gate: with a tip [lb], [add_block] returns [false] and
    leaves the chain (hence its height) as it was when [previous_hash]
    differs from the tip's hash, when the block has no hash, or when its
    hash is not its recomputed hash; otherwise it appends the block,
    returns [true], and the height grows by exactly one. *)
Theorem add_block_admission_gate (bc : Blockchain) (b lb : Block)
  (Hlatest : latest_block bc = Some lb) :
  ((hash lb <> Some (previous_hash b) \/ hash b = None
    \/ hash b <> Some (compute_hash b)) ->
   add_block bc b = Some (false, bc) /\ height bc = height bc) /\
  (hash lb = Some (previous_hash b) -> hash b = Some (compute_hash b) ->
   add_block bc b = Some (true, set_chain bc (chain bc ++ [b])%list) /\
   height (set_chain bc (chain bc ++ [b])%list) = height bc + 1).
Proof.
  unfold add_block; rewrite Hlatest. split.
  - intros Hbad; split; [|reflexivity].
    destruct (opt_eqb (Some (previous_hash b)) (hash lb)) eqn:Ep; simpl; [|reflexivity].
    apply opt_eqb_true in Ep.
    destruct (hash b) as [h|] eqn:Eh; [|reflexivity].
    destruct (String.eqb h (compute_hash b)) eqn:Ec; simpl; [|reflexivity].
    apply String.eqb_eq in Ec; subst.
    destruct Hbad as [Hb|[Hb|Hb]]; congruence.
  - intros Hp Hh. rewrite Hp, Hh. simpl. rewrite !String.eqb_refl. simpl.
    split; [reflexivity|]. unfold height; simpl. rewrite length_app; simpl. lia.
Qed.

(** C9. [add_block] never reads [index]: a linked block whose stored hash
    is its recomputed hash is appended even when its index is not the
    chain's height. *)
Theorem add_block_ignores_index (bc : Blockchain) (b lb : Block)
  (Hlatest : latest_block bc = Some lb)
  (Hlink : hash lb = Some (previous_hash b))
  (Hhash : hash b = Some (compute_hash b))
  (Hidx : index b <> height bc) :
  add_block bc b = Some (true, set_chain bc (chain bc ++ [b])%list).
Proof.
  unfold add_block; rewrite Hlatest, Hlink, Hhash. simpl.
  rewrite !String.eqb_refl. reflexivity.
Qed.

(** ** Block.mine *)

(** C6. Whenever [mine d] returns, the hash it returns starts with [d]
    characters ['0'] and is stored in the block's [hash] field (and is the
    block's recomputed hash); with [d = 0] the first check succeeds and
    the nonce is never incremented. *)
Theorem mine_meets_difficulty (fuel : nat) (d : Z) (b : Block) :
  (forall h b', mine fuel d b = Some (h, b') ->
     (exists rest, h = (str_repeat "0"%char d ++ rest)%string) /\
     hash b' = Some h /\ h = compute_hash b') /\
  (forall fuel', fuel = S fuel' -> d = 0 ->
     mine fuel d b = Some (compute_hash b, set_hash b (Some (compute_hash b))) /\
     nonce (set_hash b (Some (compute_hash b))) = nonce b).
Proof.
  split.
  - revert b; induction fuel as [|fuel IH]; intros b h b' Hm; simpl in Hm; [discriminate|].
    destruct (String.prefix (str_repeat "0" d) (compute_hash b)) eqn:Ep.
    + inversion Hm; subst. split; [now apply prefix_spec|]. split; reflexivity.
    + exact (IH _ _ _ Hm).
  - intros fuel' -> ->. simpl. unfold str_repeat at 1. simpl.
    rewrite prefix_empty. split; reflexivity.
Qed.

(** ** Nodes passed to run_round *)

(** C10. PoS, DPoS and PBFT never read the [nodes] argument: two calls on
    the same protocol state, chain, transactions, clock and random draws
    that differ only in [nodes] have the same outcome (result, protocol
    state and chain). *)
Theorem run_round_ignores_nodes :
  (forall st bc txs nodes1 nodes2 env,
     PoS.run_round st bc txs nodes1 env = PoS.run_round st bc txs nodes2 env) /\
  (forall st bc txs nodes1 nodes2 env,
     DPoS.run_round st bc txs nodes1 env = DPoS.run_round st bc txs nodes2 env) /\
  (forall st bc txs nodes1 nodes2 env,
     PBFT.run_round st bc txs nodes1 env = PBFT.run_round st bc txs nodes2 env).
Proof. repeat split. Qed.


(** ** Shape of every run_round *)

Lemma create_next_block_keeps (bc : Blockchain) txs v now blk bc1 :
  create_next_block bc (Some txs) v now = Some (blk, bc1) -> bc1 = bc.
Proof.
  unfold create_next_block; destruct (latest_block bc); [|discriminate].
  intros E; inversion E; reflexivity.
Qed.

Lemma add_block_cases (bc : Blockchain) (b : Block) (added : bool) bc' :
  add_block bc b = Some (added, bc') ->
  (added = true /\ bc' = set_chain bc (chain bc ++ [b])%list) \/
  (added = false /\ bc' = bc).
Proof.
  unfold add_block. destruct (latest_block bc); [|discriminate].
  destruct (negb _); [intros E; inversion E; auto|].
  destruct (hash b); [|intros E; inversion E; auto].
  destruct (negb _); intros E; inversion E; auto.
Qed.


Lemma pow_shape fuel st bc txs nodes env :
  round_shape bc (PoW.run_round fuel st bc txs nodes env).
Proof.
  unfold PoW.run_round. destruct nodes as [|n0 ns]; [simpl; auto|].
  destruct (py_choice _ _) as [miner|]; simpl; [|reflexivity].
  destruct (create_next_block _ _ _ _) as [[blk bc1]|] eqn:Ec; simpl; [|reflexivity].
  apply create_next_block_keeps in Ec; subst bc1.
  destruct (mine _ _ _) as [[h blk']|]; simpl; [|exact I].
  destruct (add_block bc blk') as [[added bc2]|] eqn:Ea; simpl; [|reflexivity].
  right; eexists; split; [reflexivity|exact Ea].
Qed.

Lemma pos_shape st bc txs nodes env :
  round_shape bc (PoS.run_round st bc txs nodes env).
Proof.
  unfold PoS.run_round. destruct (PoS.validators st); [cbn [round_shape]; auto|].
  destruct (PoS.select_validator _ _) as [pr|]; cbn [round_shape]; [|reflexivity].
  destruct (dict_get _ _); cbn [round_shape]; [|reflexivity].
  destruct (create_next_block _ _ _ _) as [[blk bc1]|] eqn:Ec; cbn [round_shape]; [|reflexivity].
  apply create_next_block_keeps in Ec; subst bc1.
  destruct (add_block bc _) as [[added bc2]|] eqn:Ea; cbn [round_shape]; [|reflexivity].
  right; eexists; split; [reflexivity|exact Ea].
Qed.

Lemma dpos_shape st bc txs nodes env :
  round_shape bc (DPoS.run_round st bc txs nodes env).
Proof.
  unfold DPoS.run_round. destruct (DPoS.current_delegate st); [|simpl; auto].
  destruct (create_next_block _ _ _ _) as [[blk bc1]|] eqn:Ec; simpl; [|reflexivity].
  apply create_next_block_keeps in Ec; subst bc1.
  destruct (add_block bc _) as [[added bc2]|] eqn:Ea; simpl; [|reflexivity].
  right; eexists; split; [reflexivity|exact Ea].
Qed.

Lemma pbft_shape st bc txs nodes env :
  round_shape bc (PBFT.run_round st bc txs nodes env).
Proof.
  unfold PBFT.run_round. destruct (Z.eqb _ 0); [reflexivity|].
  destruct (create_next_block _ _ _ _) as [[blk bc1]|] eqn:Ec;
    cbn [round_shape]; [|reflexivity].
  apply create_next_block_keeps in Ec; subst bc1.
  unfold PBFT.phase_commit.
  match goal with |- context [if Z.leb ?a ?c then _ else _] => destruct (Z.leb a c) end.
  - destruct (add_block bc _) as [[added bc2]|] eqn:Ea; cbn [round_shape]; [|reflexivity].
    right; eexists; split; [reflexivity|exact Ea].
  - cbn [round_shape block success]; left; auto.
Qed.

Lemma shape_consistent {S} (bc : Blockchain) (o : PyResult S) :
  round_shape bc o -> side_effect_consistent bc o.
Proof.
  destruct o as [r st bc'|e st bc'|]; simpl; auto.
  intros [(_ & Hs & ->)|(b & _ & Ha)]; [right; auto|].
  apply add_block_cases in Ha as [(Hs & ->)|(Hs & ->)]; [left|right]; eauto.
Qed.

Lemma shape_block_reported {S} (bc : Blockchain) (o : PyResult S) :
  round_shape bc o -> block_reported bc o.
Proof.
  destruct o as [r st bc'|e st bc'|]; simpl; auto.
  intros [(Hb & Hs & ->)|(b & Hb & Ha)].
  - split; [congruence|]. intros _; split; [reflexivity|]. congruence.
  - pose proof (add_block_cases _ _ _ _ Ha) as [(Hs & ->)|(Hs & ->)].
    + split; [eauto|]. congruence.
    + split; [congruence|]. intros _; split; [reflexivity|].
      intros b' Hb'; rewrite Hb in Hb'; inversion Hb'; subst; rewrite <- Hs; exact Ha.
Qed.


(** ** Side-effect consistency of run_round *)

(** C1 (amended). For each of the four protocols, a call of [run_round]
    that returns either appends exactly one block and reports success, or
    leaves the chain as it was and reports failure; a call that raises
    leaves the chain as it was.  No call leaves the chain partly mutated.
    (A call may raise instead of returning: PoS does when its total
    selection weight is negative.) *)
Theorem run_round_side_effect_consistent :
  (forall fuel st bc txs nodes env,
     side_effect_consistent bc (PoW.run_round fuel st bc txs nodes env)) /\
  (forall st bc txs nodes env,
     side_effect_consistent bc (PoS.run_round st bc txs nodes env)) /\
  (forall st bc txs nodes env,
     side_effect_consistent bc (DPoS.run_round st bc txs nodes env)) /\
  (forall st bc txs nodes env,
     side_effect_consistent bc (PBFT.run_round st bc txs nodes env)).
Proof.
  repeat split; intros; apply shape_consistent;
    auto using pow_shape, pos_shape, dpos_shape, pbft_shape.
Qed.

(** C8 (amended). For each protocol, a returned result with [success =
    true] carries the block that was appended; a result with [success =
    false] leaves the chain as it was, and if it carries a block, that
    block is one [add_block] rejects on this chain. *)
Theorem run_round_block_field :
  (forall fuel st bc txs nodes env,
     block_reported bc (PoW.run_round fuel st bc txs nodes env)) /\
  (forall st bc txs nodes env,
     block_reported bc (PoS.run_round st bc txs nodes env)) /\
  (forall st bc txs nodes env,
     block_reported bc (DPoS.run_round st bc txs nodes env)) /\
  (forall st bc txs nodes env,
     block_reported bc (PBFT.run_round st bc txs nodes env)).
Proof.
  repeat split; intros; apply shape_block_reported;
    auto using pow_shape, pos_shape, dpos_shape, pbft_shape.
Qed.

(** ** PracticalBFT.__init__ *)

(** C4 (amended). Construction fails with a ValueError exactly when
    [f > floor((n-1)/3)] or [f < 0] (a negative count is refused by
    [random.sample]); it raises nothing else, and every constructed
    instance has quorum [2f + 1].  With seven validators, [f = 3] fails
    and [f = 2] succeeds with quorum 5. *)
Theorem pbft_init_tolerance (nodes : list string) (f : Z) (js : list nat) :
  (PBFT.init nodes f js = inl ValueError <->
     (f > (Z.of_nat (List.length nodes) - 1) / 3 \/ f < 0)) /\
  (PBFT.init nodes f js = inl ValueError \/ exists st, PBFT.init nodes f js = inr st) /\
  (forall st, PBFT.init nodes f js = inr st -> PBFT.quorum st = 2 * f + 1) /\
  (List.length nodes = 7%nat ->
     PBFT.init nodes 3 js = inl ValueError /\
     exists st, PBFT.init nodes 2 js = inr st /\ PBFT.quorum st = 5).
Proof.
  assert (Hgen : forall g, (PBFT.init nodes g js = inl ValueError <->
                   (g > (Z.of_nat (List.length nodes) - 1) / 3 \/ g < 0)) /\
                 (PBFT.init nodes g js = inl ValueError \/
                    exists st, PBFT.init nodes g js = inr st) /\
                 (forall st, PBFT.init nodes g js = inr st -> PBFT.quorum st = 2 * g + 1)).
  { intros g. unfold PBFT.init, random_sample.
    set (n := Z.of_nat (List.length nodes)).
    destruct (Z.gtb g ((n - 1) / 3)) eqn:Eg.
    - apply Z.gtb_lt in Eg. split; [split; [intros _; left; lia|reflexivity]|].
      split; [left; reflexivity|intros st E; discriminate].
    - rewrite Z.gtb_ltb in Eg; apply Z.ltb_ge in Eg.
      destruct (Z.leb 0 g && Z.leb g n) eqn:Er.
      + apply andb_true_iff in Er as [E1 E2]. apply Z.leb_le in E1, E2.
        split; [split; [intros E; cbn in E; discriminate E|intros [Hc|Hc]; lia]|].
        split; [right; eexists; reflexivity|].
        intros st E; cbn in E; inversion E; reflexivity.
      + split; [split; [intros _|reflexivity]|].
        * apply andb_false_iff in Er as [Er|Er]; apply Z.leb_gt in Er; [right; lia|].
          exfalso. assert (0 <= n) by (subst n; lia).
          assert ((n - 1) / 3 <= n) by (apply Z.div_le_upper_bound; lia). lia.
        * split; [left; reflexivity|intros st E; discriminate]. }
  destruct (Hgen f) as (H1 & H2 & H3). split; [exact H1|]. split; [exact H2|].
  split; [exact H3|]. intros Hlen.
  destruct (Hgen 3) as (A1 & _ & _). destruct (Hgen 2) as (_ & B2 & B3).
  rewrite Hlen in A1. split; [apply A1; left; reflexivity|].
  destruct B2 as [B2|B2].
  - exfalso. destruct (Hgen 2) as (B1 & _ & _). apply B1 in B2. rewrite Hlen in B2.
    destruct B2 as [B2|B2]; cbv in B2; discriminate.
  - destruct B2 as [st Est]. exists st; split; [exact Est|]. rewrite (B3 st Est); reflexivity.
Qed.


(** ** List facts behind the DPoS delegate order *)

Lemma list_set_length {A} (l : list A) (i : nat) (v : A) :
  List.length (list_set l i v) = List.length l.
Proof.
  revert i; induction l as [|x t IH]; intros [|i]; simpl; auto.
Qed.

Lemma nth_list_set_perm {A} (t : list A) (j : nat) (x d : A) :
  (j < List.length t)%nat -> Permutation (nth j t d :: list_set t j x) (x :: t).
Proof.
  revert j; induction t as [|y t IH]; intros j Hj; simpl in Hj; [lia|].
  destruct j as [|j]; simpl.
  - apply perm_swap.
  - eapply perm_trans; [apply perm_swap|].
    eapply perm_trans; [apply perm_skip, IH; lia|]. apply perm_swap.
Qed.

Lemma swap_perm {A} (d : A) (l : list A) (i j : nat) :
  (i < List.length l)%nat -> (j < List.length l)%nat -> Permutation (swap d l i j) l.
Proof.
  revert i j; induction l as [|x t IH]; intros i j Hi Hj; simpl in Hi; [lia|].
  simpl in Hj. unfold swap.
  destruct i as [|i], j as [|j]; simpl.
  - apply Permutation_refl.
  - apply nth_list_set_perm; lia.
  - apply nth_list_set_perm; lia.
  - apply perm_skip. apply IH; lia.
Qed.

Lemma swap_length {A} (d : A) (l : list A) (i j : nat) :
  List.length (swap d l i j) = List.length l.
Proof. unfold swap; rewrite !list_set_length; reflexivity. Qed.

Lemma shuffle_steps_perm {A} (d : A) (i : nat) (js : list nat) (x : list A) :
  (i < List.length x)%nat -> Permutation (shuffle_steps d i js x) x.
Proof.
  revert js x; induction i as [|i IH]; intros js x Hi; cbn [shuffle_steps];
    [apply Permutation_refl|].
  eapply perm_trans; [apply IH; rewrite swap_length; lia|].
  apply swap_perm; [lia|].
  eapply Nat.lt_le_trans; [apply Nat.mod_upper_bound; lia|]. lia.
Qed.

Lemma shuffle_perm {A} (d : A) (js : list nat) (x : list A) :
  Permutation (shuffle d js x) x.
Proof.
  unfold shuffle. destruct x as [|a t]; [apply Permutation_refl|].
  apply shuffle_steps_perm. simpl; lia.
Qed.

Lemma insert_desc_perm (d : DPoS.Delegate) (l : list DPoS.Delegate) :
  Permutation (DPoS.insert_desc d l) (d :: l).
Proof.
  induction l as [|x t IH]; simpl; [apply Permutation_refl|].
  destruct (Qle_bool _ _); [|apply Permutation_refl].
  eapply perm_trans; [apply perm_skip, IH|]. apply perm_swap.
Qed.

Lemma sort_by_votes_desc_perm (l : list DPoS.Delegate) :
  Permutation (DPoS.sort_by_votes_desc l) l.
Proof.
  unfold DPoS.sort_by_votes_desc.
  assert (G : forall acc, Permutation
            (fold_left (fun acc d => DPoS.insert_desc d acc) l acc) (l ++ acc)).
  { induction l as [|x t IH]; intros acc; simpl; [apply Permutation_refl|].
    eapply perm_trans; [apply IH|].
    eapply perm_trans; [apply Permutation_app_head, insert_desc_perm|].
    apply Permutation_sym, Permutation_middle. }
  rewrite <- (app_nil_r l) at 2. apply G.
Qed.

Lemma NoDup_firstn {A} (n : nat) (l : list A) : NoDup l -> NoDup (firstn n l).
Proof.
  intros Hl. rewrite <- (firstn_skipn n l) in Hl. exact (NoDup_app_remove_r _ _ Hl).
Qed.

Lemma dict_insert_keys {A} (k : string) (v : A) (d : list (string * A)) (x : string) :
  In x (map fst (dict_insert k v d)) -> x = k \/ In x (map fst d).
Proof.
  induction d as [|[k' v'] t IH]; simpl; [intuition|].
  destruct (String.eqb k k') eqn:E; simpl.
  - apply String.eqb_eq in E; subst. intuition.
  - intros [->|Hx]; [auto|]. destruct (IH Hx); auto.
Qed.

Lemma dict_insert_nodup {A} (k : string) (v : A) (d : list (string * A)) :
  NoDup (map fst d) -> NoDup (map fst (dict_insert k v d)).
Proof.
  induction d as [|[k' v'] t IH]; simpl; intros Hd.
  - constructor; [intros []|constructor].
  - inversion Hd as [|? ? Hn Ht]; subst.
    destruct (String.eqb k k') eqn:E; simpl.
    + apply String.eqb_eq in E; subst. constructor; auto.
    + constructor; [|auto]. intros Hin. apply dict_insert_keys in Hin as [->|Hin].
      * rewrite String.eqb_refl in E; discriminate.
      * contradiction.
Qed.

Lemma dict_insert_forall {A} (P : string * A -> Prop) k v d :
  Forall P d -> P (k, v) -> Forall P (dict_insert k v d).
Proof.
  induction d as [|[k' v'] t IH]; simpl; intros Hd Hp; [auto|].
  inversion Hd; subst. destruct (String.eqb k k'); constructor; auto.
Qed.

Lemma dict_of_list_props {A} (P : string * A -> Prop) (l : list (string * A)) :
  Forall P l -> NoDup (map fst (dict_of_list l)) /\ Forall P (dict_of_list l).
Proof.
  unfold dict_of_list.
  assert (G : forall acc, NoDup (map fst acc) -> Forall P acc -> Forall P l ->
            NoDup (map fst (fold_left (fun d kv => dict_insert (fst kv) (snd kv) d) l acc)) /\
            Forall P (fold_left (fun d kv => dict_insert (fst kv) (snd kv) d) l acc)).
  { induction l as [|[k v] t IH]; intros acc Hn Hp Hl; simpl; [auto|].
    inversion Hl; subst. apply IH; auto using dict_insert_nodup, dict_insert_forall. }
  intros Hl. apply G; auto. constructor.
Qed.

(** Every DPoS instance fixes an order of distinct delegates. *)
Lemma dpos_init_nodup (vs : list (string * Q)) (num : Z) (js : list nat) :
  NoDup (DPoS.active_delegates (DPoS.init vs num js)).
Proof.
  simpl. unfold DPoS.elect_delegates.
  set (cands := dict_of_list _).
  destruct (dict_of_list_props (fun kv => DPoS.address (snd kv) = fst kv)
              (map (fun kv => (fst kv, DPoS.mkDelegate (fst kv) (snd kv) 0)) vs))
    as [Hn Hf].
  { apply Forall_forall. intros kv Hin. apply in_map_iff in Hin as (? & <- & _). reflexivity. }
  fold cands in Hn, Hf.
  apply (Permutation_NoDup (Permutation_sym (shuffle_perm _ _ _))).
  assert (Hs : NoDup (map DPoS.address (DPoS.sort_by_votes_desc (map snd cands)))).
  { apply (Permutation_NoDup (Permutation_map _ (Permutation_sym (sort_by_votes_desc_perm _)))).
    rewrite map_map.
    rewrite (map_ext_Forall _ _ Hf). exact Hn. }
  unfold py_slice_to. destruct (Z.leb 0 num); rewrite <- firstn_map; apply NoDup_firstn; exact Hs.
Qed.


(** ** DelegatedProofOfStake.run_round *)

Lemma add_block_some (bc : Blockchain) (b lb : Block) :
  latest_block bc = Some lb -> exists x, add_block bc b = Some x.
Proof.
  intros Hl. unfold add_block; rewrite Hl.
  destruct (negb _); [eauto|]. destruct (hash b); [|eauto]. destruct (negb _); eauto.
Qed.

Lemma dpos_current_some (st : DPoS.DelegatedProofOfStake) :
  DPoS.active_delegates st <> [] ->
  DPoS.current_delegate st =
    Some (nth (Z.to_nat (DPoS.round_index st
                         mod Z.of_nat (List.length (DPoS.active_delegates st))))
              (DPoS.active_delegates st) EmptyString).
Proof.
  unfold DPoS.current_delegate. destruct (DPoS.active_delegates st) as [|a l]; [congruence|].
  intros _. apply nth_error_nth'.
  set (k := Z.of_nat (List.length (a :: l))).
  assert (0 < k) by (subst k; simpl; lia).
  pose proof (Z.mod_pos_bound (DPoS.round_index st) k H0).
  assert (Z.to_nat (DPoS.round_index st mod k) < Z.to_nat k)%nat by (apply Z2Nat.inj_lt; lia).
  subst k; rewrite Nat2Z.id in H2; exact H2.
Qed.

Lemma dpos_step st bc txs nodes env :
  DPoS.active_delegates st <> [] -> chain bc <> [] ->
  exists r st' bc',
    DPoS.run_round st bc txs nodes env = Returned r st' bc' /\
    proposer r = DPoS.current_delegate st /\
    DPoS.round_index st' = DPoS.round_index st + 1 /\
    DPoS.active_delegates st' = DPoS.active_delegates st /\
    chain bc' <> [].
Proof.
  intros Ha Hc. destruct (latest_block_nonempty bc Hc) as [lb Hl].
  unfold DPoS.run_round. rewrite (dpos_current_some st Ha).
  unfold create_next_block at 1. rewrite Hl.
  match goal with |- context [add_block bc ?b] =>
    destruct (add_block_some bc b lb Hl) as [[added bc2] Ea]; rewrite Ea end.
  do 3 eexists. split; [reflexivity|]. cbn.
  repeat split; try reflexivity.
  apply add_block_cases in Ea as [(_ & ->)|(_ & ->)]; simpl; [|exact Hc].
  destruct (chain bc); discriminate.
Qed.

Lemma dpos_active_preserved st bc txs nodes env :
  match DPoS.run_round st bc txs nodes env with
  | Returned _ st' _ | Raised _ st' _ =>
      DPoS.active_delegates st' = DPoS.active_delegates st
  | Running => True
  end.
Proof.
  unfold DPoS.run_round. destruct (DPoS.current_delegate st); [|reflexivity].
  destruct (create_next_block _ _ _ _) as [[blk bc1]|]; [|reflexivity].
  destruct (add_block _ _) as [[added bc2]|]; reflexivity.
Qed.

Lemma dpos_reach_active st0 st :
  reach DPoS.run_round st0 st ->
  DPoS.active_delegates st = DPoS.active_delegates st0.
Proof.
  induction 1 as [|st bc txs nodes env r st' bc' _ IH E|st bc txs nodes env e st' bc' _ IH E];
    [reflexivity| |];
    pose proof (dpos_active_preserved st bc txs nodes env) as P; rewrite E in P; congruence.
Qed.

Lemma dpos_run_seq_proposers st bc txs nodes envs :
  DPoS.active_delegates st <> [] -> chain bc <> [] ->
  map outcome_proposer
      (run_seq (fun s b e => DPoS.run_round s b txs nodes e) st bc envs) =
  map (fun i => Some (nth (Z.to_nat ((DPoS.round_index st + Z.of_nat i)
                                     mod Z.of_nat (List.length (DPoS.active_delegates st))))
                          (DPoS.active_delegates st) EmptyString))
      (seq 0 (List.length envs)).
Proof.
  revert st bc; induction envs as [|e es IH]; intros st bc Ha Hc; [reflexivity|].
  destruct (dpos_step st bc txs nodes e Ha Hc) as (r & st' & bc' & E & Hp & Hr & Hact & Hc').
  cbn [run_seq]. rewrite E. cbn [map outcome_proposer List.length seq].
  rewrite Hp, (dpos_current_some st Ha), Z.add_0_r. f_equal.
  rewrite IH by congruence. rewrite <- seq_shift, map_map. apply map_ext.
  intros i. rewrite Hr, Hact. f_equal. f_equal. f_equal. f_equal. lia.
Qed.

Lemma mod_shift_inj (r k : Z) (a b : nat) :
  0 < k -> Z.of_nat a < k -> Z.of_nat b < k ->
  (r + Z.of_nat a) mod k = (r + Z.of_nat b) mod k -> a = b.
Proof.
  intros Hk Ha Hb E.
  pose proof (Z.div_mod (r + Z.of_nat a) k ltac:(lia)) as Da.
  pose proof (Z.div_mod (r + Z.of_nat b) k ltac:(lia)) as Db.
  set (qa := (r + Z.of_nat a) / k) in Da. set (qb := (r + Z.of_nat b) / k) in Db.
  assert (Z.of_nat a - Z.of_nat b = k * (qa - qb)) by lia.
  assert (qa - qb = 0) by nia.
  lia.
Qed.

(** The delegates at [k] consecutive round indices form the whole order. *)
Lemma rotation_perm (l : list string) (r : Z) :
  NoDup l ->
  Permutation
    (map (fun i => nth (Z.to_nat ((r + Z.of_nat i) mod Z.of_nat (List.length l))) l EmptyString)
         (seq 0 (List.length l)))
    l.
Proof.
  intros Hl. destruct l as [|a t]; [apply Permutation_refl|].
  set (l := a :: t) in *.
  set (k := Z.of_nat (List.length l)).
  assert (Hk : 0 < k) by (subst k l; simpl; lia).
  assert (Hidx : forall i, (Z.to_nat ((r + Z.of_nat i) mod k) < List.length l)%nat).
  { intros i. pose proof (Z.mod_pos_bound (r + Z.of_nat i) k Hk).
    assert (Z.to_nat ((r + Z.of_nat i) mod k) < Z.to_nat k)%nat by (apply Z2Nat.inj_lt; lia).
    subst k; rewrite Nat2Z.id in H1; exact H1. }
  apply NoDup_Permutation_bis.
  - apply NoDup_map_NoDup_ForallPairs; [|apply seq_NoDup].
    intros x y Hx Hy Exy. apply in_seq in Hx, Hy.
    apply (proj1 (NoDup_nth l EmptyString) Hl) in Exy; [|apply Hidx|apply Hidx].
    apply Z2Nat.inj in Exy; try (apply Z.mod_pos_bound; lia).
    apply (mod_shift_inj r k); auto; subst k; lia.
  - rewrite length_map, length_seq. lia.
  - intros x Hx. apply in_map_iff in Hx as (i & <- & _). apply nth_In, Hidx.
Qed.


(** C7 (amended): once the active delegate list is nonempty, each call to
    [run_round] on a chain with at least one block proposes the delegate at
    [round_index mod k] and increments [round_index] by one, whether or not the
    block was accepted, and the delegate order never changes; [k] consecutive
    calls therefore propose each of the [k] distinct delegates exactly once.
    With no active delegate the call returns the failure result and leaves
    the state, including [round_index], unchanged. *)
Theorem dpos_round_robin vs num js st bc txs nodes envs :
  reach DPoS.run_round (DPoS.init vs num js) st ->
  chain bc <> [] ->
  DPoS.active_delegates st = DPoS.active_delegates (DPoS.init vs num js) /\
  NoDup (DPoS.active_delegates st) /\
  (DPoS.active_delegates st = [] -> forall env,
     DPoS.run_round st bc txs nodes env = Returned (failure MsgNoDelegates) st bc) /\
  (DPoS.active_delegates st <> [] -> forall env,
     exists r st' bc',
       DPoS.run_round st bc txs nodes env = Returned r st' bc' /\
       proposer r = nth_error (DPoS.active_delegates st)
                      (Z.to_nat (DPoS.round_index st
                                 mod Z.of_nat (List.length (DPoS.active_delegates st)))) /\
       DPoS.round_index st' = DPoS.round_index st + 1 /\
       DPoS.active_delegates st' = DPoS.active_delegates st) /\
  (List.length envs = List.length (DPoS.active_delegates st) ->
   Permutation
     (map outcome_proposer
        (run_seq (fun s b e => DPoS.run_round s b txs nodes e) st bc envs))
     (map Some (DPoS.active_delegates st))).
Proof.
  intros Hr Hc.
  pose proof (dpos_reach_active _ _ Hr) as Ha.
  assert (Hnd : NoDup (DPoS.active_delegates st)) by (rewrite Ha; apply dpos_init_nodup).
  split; [exact Ha|]. split; [exact Hnd|]. split; [|split].
  - intros He env. unfold DPoS.run_round, DPoS.current_delegate. rewrite He. reflexivity.
  - intros Hne env.
    destruct (dpos_step st bc txs nodes env Hne Hc) as (r & st' & bc' & E & Hp & Hri & Hact & _).
    exists r, st', bc'. repeat split; auto.
    rewrite Hp. unfold DPoS.current_delegate. destruct (DPoS.active_delegates st); [congruence|reflexivity].
  - intros Hlen. destruct (DPoS.active_delegates st) as [|a l] eqn:E.
    + destruct envs; [apply Permutation_refl|discriminate].
    + rewrite dpos_run_seq_proposers by (congruence || exact Hc).
      rewrite E, Hlen, <- (map_map (fun i => nth _ _ _) Some).
      apply Permutation_map. rewrite <- E at 2. rewrite <- E in Hnd |- *.
      apply (rotation_perm (DPoS.active_delegates st) (DPoS.round_index st) Hnd).
Qed.


(** ** PracticalBFT.run_round *)

Lemma set_add_fold (l s : list string) :
  NoDup (s ++ l) -> fold_left (fun acc x => set_add x acc) l s = (s ++ l)%list.
Proof.
  revert s; induction l as [|x l IH]; intros s Hn; simpl; [now rewrite app_nil_r|].
  unfold set_add at 2.
  destruct (existsb (String.eqb x) s) eqn:E.
  - apply existsb_exists in E as (y & Hy & Exy). apply String.eqb_eq in Exy; subst y.
    exfalso. apply NoDup_remove_2 in Hn. apply Hn, in_or_app; auto.
  - rewrite IH; [now rewrite <- app_assoc|]. now rewrite <- app_assoc.
Qed.

Lemma pbft_map_nodes_roster g st :
  (forall nd, PBFT.address (g nd) = PBFT.address nd /\
              PBFT.is_byzantine (g nd) = PBFT.is_byzantine nd) ->
  PBFT.phase_prepare (PBFT.map_nodes g st) = PBFT.phase_prepare st /\
  PBFT.byzantine_count (PBFT.map_nodes g st) = PBFT.byzantine_count st /\
  PBFT.node_list (PBFT.map_nodes g st) = PBFT.node_list st.
Proof.
  intros Hg. split; [|split; reflexivity].
  unfold PBFT.phase_prepare, PBFT.map_nodes; cbn [PBFT.pbft_nodes].
  rewrite filter_map_swap, map_map. cbn [fst snd].
  rewrite (filter_ext (fun a => negb (PBFT.is_byzantine (g (snd a))))
                      (fun kv => negb (PBFT.is_byzantine (snd kv))))
    by (intros [k nd]; cbn; now rewrite (proj2 (Hg nd))).
  apply map_ext. intros [k nd]; cbn. apply Hg.
Qed.


Lemma roster_map_nodes g st :
  (forall nd, PBFT.address (g nd) = PBFT.address nd /\
              PBFT.is_byzantine (g nd) = PBFT.is_byzantine nd) ->
  roster (PBFT.map_nodes g st) = roster st.
Proof.
  intros Hg. unfold roster. f_equal. f_equal.
  unfold PBFT.phase_prepare, PBFT.map_nodes; cbn [PBFT.pbft_nodes].
  rewrite filter_map_swap, map_map. cbn [fst snd].
  rewrite (filter_ext (fun a => negb (PBFT.is_byzantine (g (snd a))))
                      (fun kv => negb (PBFT.is_byzantine (snd kv))))
    by (intros [k nd]; cbn; now rewrite (proj2 (Hg nd))).
  apply map_ext. intros [k nd]; cbn. apply Hg.
Qed.

Lemma roster_reset st : roster (PBFT.reset_round st) = roster st.
Proof. apply roster_map_nodes; intros nd; split; reflexivity. Qed.

Lemma roster_prepares m st : roster (PBFT.distribute_prepares m st) = roster st.
Proof. apply roster_map_nodes; intros nd; split; reflexivity. Qed.

Lemma roster_commit st : roster (snd (PBFT.phase_commit st)) = roster st.
Proof.
  apply roster_map_nodes; intros nd. destruct (PBFT.commit_ready _ nd); split; reflexivity.
Qed.

Lemma roster_commits m st : roster (PBFT.distribute_commits m st) = roster st.
Proof. apply roster_map_nodes; intros nd; split; reflexivity. Qed.

Lemma roster_view st v : roster (PBFT.set_view st v) = roster st.
Proof. reflexivity. Qed.

Lemma pbft_run_preserved st bc txs nodes env :
  match PBFT.run_round st bc txs nodes env with
  | Returned _ st' _ | Raised _ st' _ => roster st' = roster st
  | Running => True
  end.
Proof.
  unfold PBFT.run_round.
  destruct (Z.eqb _ 0); [apply roster_reset|].
  destruct (create_next_block _ _ _ _) as [[blk0 bc1]|]; [|apply roster_reset].
  destruct (PBFT.phase_commit (PBFT.distribute_prepares _ _)) as [cm st3] eqn:Epc.
  assert (R3 : roster st3 = roster st).
  { change st3 with (snd (cm, st3)). rewrite <- Epc, roster_commit, roster_prepares.
    apply roster_reset. }
  destruct (Z.leb _ _); [destruct (add_block _ _) as [[added bc2]|]|];
    rewrite ?roster_view, roster_commits; exact R3.
Qed.

Lemma pbft_reach_roster st0 st :
  reach PBFT.run_round st0 st -> roster st = roster st0.
Proof.
  induction 1 as [|st bc txs nodes env r st' bc' _ IH E|st bc txs nodes env e st' bc' _ IH E];
    [reflexivity| |];
    pose proof (pbft_run_preserved st bc txs nodes env) as P; rewrite E in P; congruence.
Qed.


Lemma pbft_round_success st bc lb txs nodes env :
  NoDup (PBFT.phase_prepare st) ->
  PBFT.quorum st <= Z.of_nat (List.length (PBFT.phase_prepare st)) ->
  PBFT.node_list st <> [] ->
  latest_block bc = Some lb -> hash lb <> None ->
  exists r st' bc',
    PBFT.run_round st bc txs nodes env = Returned r st' bc' /\
    success r = true /\ rounds r = 3 /\
    exists b, block r = Some b /\ chain bc' = (chain bc ++ [b])%list.
Proof.
  intros Hnd Hq Hnl Hl Hh.
  set (HP := PBFT.phase_prepare st) in *.
  unfold PBFT.run_round. cbv zeta.
  set (st1 := PBFT.reset_round st).
  assert (Hp1 : PBFT.phase_prepare st1 = HP)
    by exact (f_equal (fun r => fst (fst r)) (roster_reset st)).
  change (PBFT.node_list st1) with (PBFT.node_list st).
  destruct (Z.eqb _ 0) eqn:En.
  { apply Z.eqb_eq in En. destruct (PBFT.node_list st); [congruence|]. simpl in En; lia. }
  destruct (create_next_block bc (Some txs) _ _) as [[blk0 bc1]|] eqn:Ec.
  2: { unfold create_next_block in Ec; rewrite Hl in Ec; discriminate. }
  destruct (add_block_fresh _ _ _ _ _ _ Ec) as (-> & lb' & Hl' & Ea).
  rewrite Hl in Hl'; injection Hl' as <-.
  destruct (hash lb) as [h|]; [|congruence].
  rewrite Hp1.
  set (st2 := PBFT.distribute_prepares HP st1).
  assert (P2 : Forall (fun kv => PBFT.prepares_received (snd kv) = HP /\
                                 PBFT.commits_received (snd kv) = []) (PBFT.pbft_nodes st2)).
  { unfold st2, st1, PBFT.distribute_prepares, PBFT.reset_round, PBFT.map_nodes;
      cbn [PBFT.pbft_nodes].
    rewrite map_map. apply Forall_map, Forall_forall. intros kv _. cbn. split; [|reflexivity].
    now rewrite set_add_fold. }
  assert (Pp2 : PBFT.phase_prepare st2 = HP).
  { pose proof (roster_prepares HP st1) as R. fold st2 in R. unfold roster in R.
    rewrite <- Hp1. exact (f_equal (fun r => fst (fst r)) R). }
  assert (Ecm : fst (PBFT.phase_commit st2) = HP).
  { unfold PBFT.phase_commit; cbn [fst].
    rewrite (filter_ext_in _ (fun kv => negb (PBFT.is_byzantine (snd kv)))).
    - exact Pp2.
    - intros kv Hin. rewrite Forall_forall in P2. destruct (P2 kv Hin) as [Hpr _].
      unfold PBFT.commit_ready. rewrite Hpr.
      replace (Z.leb (PBFT.quorum st2) (Z.of_nat (List.length HP))) with true
        by (symmetry; apply Z.leb_le; exact Hq).
      apply andb_true_r. }
  destruct (PBFT.phase_commit st2) as [cm st3] eqn:Epc. cbn [fst] in Ecm. subst cm.
  assert (P3 : Forall (fun kv => PBFT.commits_received (snd kv) = []) (PBFT.pbft_nodes st3)).
  { change st3 with (snd (HP, st3)). rewrite <- Epc.
    unfold PBFT.phase_commit, PBFT.map_nodes; cbn [snd PBFT.pbft_nodes].
    apply Forall_map. eapply Forall_impl; [|exact P2]. intros [k nd] [_ Hc]; cbn in *.
    destruct (PBFT.commit_ready _ nd); cbn; exact Hc. }
  set (st4 := PBFT.distribute_commits HP st3).
  assert (P4 : Forall (fun kv => PBFT.commits_received (snd kv) = HP) (PBFT.pbft_nodes st4)).
  { unfold st4, PBFT.distribute_commits, PBFT.map_nodes; cbn [PBFT.pbft_nodes].
    apply Forall_map. eapply Forall_impl; [|exact P3]. intros [k nd] Hc; cbn in *.
    rewrite Hc. now rewrite set_add_fold. }
  assert (R4 : roster st4 = roster st).
  { unfold st4. rewrite roster_commits. change st3 with (snd (HP, st3)).
    rewrite <- Epc, roster_commit. unfold st2. rewrite roster_prepares. apply roster_reset. }
  assert (Hp4 : PBFT.phase_prepare st4 = HP) by exact (f_equal (fun r => fst (fst r)) R4).
  assert (Hb4 : PBFT.byzantine_count st4 = PBFT.byzantine_count st)
    by exact (f_equal (fun r => snd (fst r)) R4).
  assert (Ecc : PBFT.committed_count st4 = Z.of_nat (List.length HP)).
  { unfold PBFT.committed_count. rewrite <- Hp4. unfold PBFT.phase_prepare.
    rewrite length_map. f_equal. f_equal.
    apply filter_ext_in. intros kv Hin. rewrite Forall_forall in P4. rewrite (P4 kv Hin).
    replace (Z.leb (PBFT.quorum st4) _) with true; [reflexivity|].
    symmetry; apply Z.leb_le. unfold PBFT.quorum in *. rewrite Hb4. exact Hq. }
  rewrite Ecc.
  replace (Z.leb (PBFT.quorum st4) _) with true
    by (symmetry; apply Z.leb_le; unfold PBFT.quorum in *; rewrite Hb4; exact Hq).
  rewrite Ea. do 3 eexists. split; [reflexivity|]. cbn. split; [reflexivity|].
  split; [reflexivity|]. eexists; split; reflexivity.
Qed.


Lemma sample_pool_length {A} (d : A) steps n i js pool :
  List.length (sample_pool d steps n i js pool) = steps.
Proof.
  revert i js pool; induction steps as [|s IH]; intros i js pool; simpl; [reflexivity|].
  now rewrite IH.
Qed.

Lemma dict_insert_fresh {A} (k : string) (v : A) (d : list (string * A)) :
  ~ In k (map fst d) -> dict_insert k v d = (d ++ [(k, v)])%list.
Proof.
  induction d as [|[k' v'] t IH]; simpl; intros Hn; [reflexivity|].
  destruct (String.eqb k k') eqn:E.
  - apply String.eqb_eq in E; subst; tauto.
  - rewrite IH by tauto. reflexivity.
Qed.

Lemma dict_of_list_fresh {A} (l : list (string * A)) :
  NoDup (map fst l) -> dict_of_list l = l.
Proof.
  unfold dict_of_list.
  assert (G : forall acc, NoDup (map fst (acc ++ l)) ->
            fold_left (fun d kv => dict_insert (fst kv) (snd kv) d) l acc = (acc ++ l)%list).
  { induction l as [|[k v] t IH]; intros acc Hn; simpl; [now rewrite app_nil_r|].
    rewrite dict_insert_fresh.
    - rewrite IH; [now rewrite <- app_assoc|]. now rewrite <- app_assoc.
    - rewrite map_app in Hn. simpl in Hn. intros Hin.
      apply NoDup_remove_2 in Hn. apply Hn, in_or_app; auto. }
  intros Hn. apply G. exact Hn.
Qed.

Lemma pbft_init_honest nodes f js st0 :
  NoDup nodes -> PBFT.init nodes f js = inr st0 ->
  exists byz, List.length byz = Z.to_nat f /\
    PBFT.phase_prepare st0 = filter (fun a => negb (existsb (String.eqb a) byz)) nodes /\
    PBFT.node_list st0 = nodes /\ PBFT.byzantine_count st0 = f.
Proof.
  intros Hnd. unfold PBFT.init.
  destruct (Z.gtb _ _); [discriminate|].
  destruct (random_sample EmptyString nodes f js) as [byz|] eqn:Es; [|discriminate].
  intros E; injection E as <-. exists byz. split; [|split; [|split; reflexivity]].
  - unfold random_sample in Es. destruct (Z.leb 0 f && _); [|discriminate].
    injection Es as <-. apply sample_pool_length.
  - unfold PBFT.phase_prepare; cbn [PBFT.pbft_nodes].
    rewrite dict_of_list_fresh by (rewrite map_map; cbn; now rewrite map_id).
    rewrite filter_map_swap, map_map. cbn. rewrite map_id. reflexivity.
Qed.

Lemma honest_count nodes (byz : list string) :
  NoDup nodes ->
  (List.length nodes <= List.length byz +
     List.length (filter (fun a => negb (existsb (String.eqb a) byz)) nodes))%nat.
Proof.
  intros Hnd. rewrite <- (filter_length (fun a => negb (existsb (String.eqb a) byz)) nodes).
  enough (List.length (filter (fun x => negb (negb (existsb (String.eqb x) byz))) nodes)
          <= List.length byz)%nat by lia.
  apply NoDup_incl_length; [now apply NoDup_filter|].
  intros x Hx. apply filter_In in Hx as [_ Hx]. rewrite negb_involutive in Hx.
  apply existsb_exists in Hx as (y & Hy & Exy). apply String.eqb_eq in Exy. now subst.
Qed.


(** C5: a PBFT instance built over 7 distinct validators with [f = 2]
    reaches consensus in every later round (after any sequence of earlier
    rounds, whatever their transactions, node lists, clocks or outcomes):
    on a chain whose latest block has a hash, [run_round] returns
    [success = true] with [rounds = 3] and appends the proposed block. *)
Theorem pbft_liveness_7_2 nodes js st0 st bc lb txs nodes' env :
  List.length nodes = 7%nat -> NoDup nodes ->
  PBFT.init nodes 2 js = inr st0 ->
  reach PBFT.run_round st0 st ->
  latest_block bc = Some lb -> hash lb <> None ->
  exists r st' bc',
    PBFT.run_round st bc txs nodes' env = Returned r st' bc' /\
    success r = true /\ rounds r = 3 /\
    exists b, block r = Some b /\ chain bc' = (chain bc ++ [b])%list.
Proof.
  intros Hlen Hnd Hinit Hr Hl Hh.
  destruct (pbft_init_honest nodes 2 js st0 Hnd Hinit) as (byz & Hb & Hp & Hn & Hf).
  pose proof (pbft_reach_roster _ _ Hr) as R. unfold roster in R.
  assert (Hp' : PBFT.phase_prepare st = PBFT.phase_prepare st0)
    by exact (f_equal (fun r => fst (fst r)) R).
  assert (Hf' : PBFT.byzantine_count st = PBFT.byzantine_count st0)
    by exact (f_equal (fun r => snd (fst r)) R).
  assert (Hn' : PBFT.node_list st = PBFT.node_list st0)
    by exact (f_equal (fun r => snd r) R).
  apply (pbft_round_success st bc lb txs nodes' env); auto.
  - rewrite Hp', Hp. now apply NoDup_filter.
  - unfold PBFT.quorum. rewrite Hf', Hf, Hp', Hp.
    pose proof (honest_count nodes byz Hnd). simpl in Hb. lia.
  - rewrite Hn', Hn. destruct nodes; [discriminate|congruence].
Qed.


(** ** Blockchain.is_valid *)

Lemma str_app_assoc (a b c : string) : ((a ++ b) ++ c = a ++ (b ++ c))%string.
Proof. induction a; simpl; congruence. Qed.

Lemma str_app_nil_r (a : string) : (a ++ EmptyString = a)%string.
Proof. induction a; simpl; congruence. Qed.

Lemma str_length_app (a b : string) :
  String.length (a ++ b) = (String.length a + String.length b)%nat.
Proof. induction a; simpl; congruence. Qed.

Lemma str_cancel_l (a x y : string) : (a ++ x = a ++ y)%string -> x = y.
Proof. induction a; simpl; [auto|]. intros E; injection E; auto. Qed.

Lemma str_cancel_same_length (x y a b : string) :
  String.length x = String.length y -> (x ++ a = y ++ b)%string -> x = y.
Proof.
  revert y; induction x as [|c x IH]; intros [|c' y] Hl E; simpl in *; try discriminate;
    [reflexivity|].
  injection E as -> E. f_equal. apply (IH y); [lia|exact E].
Qed.

Lemma str_cancel_r (x y a : string) : (x ++ a = y ++ a)%string -> x = y.
Proof.
  intros E. apply (str_cancel_same_length x y a a); [|exact E].
  pose proof (f_equal String.length E) as L. rewrite !str_length_app in L. lia.
Qed.

Lemma uint_str_inj (d d' : Decimal.uint) : uint_str d = uint_str d' -> d = d'.
Proof.
  revert d'; induction d; intros []; simpl; intros E; try discriminate;
    try reflexivity; injection E as E; f_equal; auto.
Qed.

Lemma uint_str_no_minus (d : Decimal.uint) s : uint_str d <> String "-" s.
Proof. destruct d; simpl; discriminate. Qed.

Lemma int_str_inj (n n' : Z) : int_str n = int_str n' -> n = n'.
Proof.
  unfold int_str. intros E. apply DecimalZ.to_int_inj.
  destruct (Z.to_int n) as [d|d], (Z.to_int n') as [d'|d'].
  - f_equal; now apply uint_str_inj.
  - exfalso; exact (uint_str_no_minus d _ E).
  - exfalso; exact (uint_str_no_minus d' _ (eq_sym E)).
  - injection E as E. f_equal; now apply uint_str_inj.
Qed.

Lemma concat_empty_cons (x : string) (xs : list string) :
  String.concat EmptyString (x :: xs) = (x ++ String.concat EmptyString xs)%string.
Proof. destruct xs; simpl; [now rewrite str_app_nil_r|reflexivity]. Qed.

Lemma concat_empty_app (l1 l2 : list string) :
  String.concat EmptyString (l1 ++ l2) =
  (String.concat EmptyString l1 ++ String.concat EmptyString l2)%string.
Proof.
  induction l1 as [|x l IH]; [reflexivity|].
  rewrite <- app_comm_cons, !concat_empty_cons, IH. symmetry; apply str_app_assoc.
Qed.

(** Changing the nonce always changes the hashed text. *)
Lemma block_data_nonce (b : Block) (n : Z) :
  n <> nonce b -> block_data (set_nonce b n) <> block_data b.
Proof.
  intros Hn E. unfold block_data in E; cbn [index timestamp transactions previous_hash
    nonce validator set_nonce] in E.
  rewrite <- !str_app_assoc in E. apply str_cancel_r in E.
  rewrite !str_app_assoc in E. repeat apply str_cancel_l in E.
  now apply Hn, int_str_inj.
Qed.

(** Replacing one transaction by one with a different hash text always
    changes the hashed text; with the same hash text it changes nothing. *)
Lemma block_data_tx (b : Block) tpre tx tx' tpost :
  transactions b = (tpre ++ tx :: tpost)%list ->
  (block_data (set_transactions b (tpre ++ tx' :: tpost)%list) = block_data b <->
   tx_hash_text tx' = tx_hash_text tx).
Proof.
  intros Ht. unfold block_data; cbn [index timestamp transactions previous_hash
    nonce validator set_transactions]. rewrite Ht, !map_app, !concat_empty_app.
  cbn [map]. rewrite !concat_empty_cons.
  split; [|intros ->; reflexivity].
  intros E. rewrite <- !str_app_assoc in E.
  do 4 apply str_cancel_r in E. rewrite !str_app_assoc in E.
  do 3 apply str_cancel_l in E. exact E.
Qed.


Lemma is_valid_from_prev (p p' : Block) (l : list Block) :
  hash p = hash p' -> is_valid_from p l = is_valid_from p' l.
Proof. destruct l; simpl; [reflexivity|]. intros ->. reflexivity. Qed.

(** Only the replaced block's own hash check can change. *)
Lemma is_valid_from_replace (p : Block) pre (blk blk' : Block) post :
  hash blk' = hash blk -> previous_hash blk' = previous_hash blk ->
  is_valid_from p (pre ++ blk :: post)%list = true ->
  is_valid_from p (pre ++ blk' :: post)%list = opt_eqb (hash blk') (Some (compute_hash blk')).
Proof.
  intros Hh Hp. revert p; induction pre as [|x pre IH]; intros p; cbn [is_valid_from app].
  - destruct (negb (opt_eqb (hash blk) _)); [discriminate|].
    destruct (negb (opt_eqb (Some (previous_hash blk)) (hash p))) eqn:E2; [discriminate|].
    intros Hv. rewrite Hp, E2, (is_valid_from_prev blk' blk post Hh), Hv.
    destruct (opt_eqb (hash blk') _); reflexivity.
  - destruct (negb _); [discriminate|]. destruct (negb _); [discriminate|]. apply IH.
Qed.

Lemma is_valid_from_snoc (p : Block) l (b lb : Block) :
  last (map Some (p :: l)) None = Some lb ->
  is_valid_from p l = true -> hash b = Some (compute_hash b) ->
  opt_eqb (Some (previous_hash b)) (hash lb) = true ->
  is_valid_from p (l ++ [b])%list = true.
Proof.
  revert p; induction l as [|x l IH]; intros p El Hv Hb Hl.
  - simpl in El. injection El as <-. cbn [is_valid_from app]. rewrite Hl, Hb. cbn.
    now rewrite String.eqb_refl.
  - cbn [is_valid_from app] in Hv |- *. destruct (negb _); [discriminate|]. destruct (negb _); [discriminate|].
    apply IH; auto.
Qed.

Lemma is_valid_add_block (bc : Blockchain) (b : Block) bc' :
  is_valid bc = true -> add_block bc b = Some (true, bc') -> is_valid bc' = true.
Proof.
  intros Hv. unfold add_block. destruct (latest_block bc) as [lb|] eqn:El; [|discriminate].
  destruct (opt_eqb (Some (previous_hash b)) (hash lb)) eqn:E1; cbn [negb]; [|discriminate].
  destruct (hash b) as [h|] eqn:Eh; [|discriminate].
  destruct (String.eqb h (compute_hash b)) eqn:E2; cbn [negb]; [|discriminate].
  intros E; injection E as <-. apply String.eqb_eq in E2; subst h.
  unfold is_valid, latest_block in *; cbn [chain set_chain].
  destruct (chain bc) as [|p l]; [discriminate El|].
  apply (is_valid_from_snoc p l b lb El Hv Eh E1).
Qed.

Lemma is_valid_tamper (bc : Blockchain) (b0 : Block) pre (blk blk' : Block) post :
  chain bc = (b0 :: pre ++ blk :: post)%list -> is_valid bc = true ->
  hash blk' = hash blk -> previous_hash blk' = previous_hash blk ->
  (is_valid (set_chain bc (b0 :: pre ++ blk' :: post)%list) = true <->
   compute_hash blk' = compute_hash blk).
Proof.
  intros Hc Hv Hh Hp. unfold is_valid in *; rewrite Hc in Hv; cbn [chain set_chain].
  rewrite (is_valid_from_replace b0 pre blk blk' post Hh Hp Hv).
  pose proof (is_valid_from_replace b0 pre blk blk post eq_refl eq_refl Hv) as Hs.
  rewrite Hv in Hs. symmetry in Hs. apply opt_eqb_true in Hs.
  rewrite Hh, Hs. cbn. rewrite String.eqb_eq. split; congruence.
Qed.


(** C3 (amended): a valid chain stays valid after an append accepted by
    [add_block].  [is_valid] checks blocks from index 1 on, so for a block
    after the genesis block, changing its nonce, or replacing one of its
    transactions by one with a different hash text ([tx_id], or the computed
    hash when [tx_id] is empty), always changes the hashed text, and
    [is_valid] then returns [false] unless SHA-256 maps the two different
    texts to the same digest.  A transaction replaced by one with the same
    hash text (a field changed while [tx_id] is kept) leaves any valid chain
    valid, and any change to the genesis block that keeps its stored hash
    leaves [is_valid] unchanged. *)
Theorem is_valid_append_and_tamper :
  (forall bc b bc',
     is_valid bc = true -> add_block bc b = Some (true, bc') -> is_valid bc' = true) /\
  (forall bc b0 pre blk post n,
     chain bc = (b0 :: pre ++ blk :: post)%list -> is_valid bc = true -> n <> nonce blk ->
     block_data (set_nonce blk n) <> block_data blk /\
     (is_valid (set_chain bc (b0 :: pre ++ set_nonce blk n :: post)%list) = true <->
      sha256 (block_data (set_nonce blk n)) = sha256 (block_data blk))) /\
  (forall bc b0 pre blk post tpre tx tx' tpost,
     chain bc = (b0 :: pre ++ blk :: post)%list -> is_valid bc = true ->
     transactions blk = (tpre ++ tx :: tpost)%list ->
     tx_hash_text tx' <> tx_hash_text tx ->
     block_data (set_transactions blk (tpre ++ tx' :: tpost)%list) <> block_data blk /\
     (is_valid (set_chain bc
        (b0 :: pre ++ set_transactions blk (tpre ++ tx' :: tpost)%list :: post)%list) = true <->
      sha256 (block_data (set_transactions blk (tpre ++ tx' :: tpost)%list)) =
      sha256 (block_data blk))) /\
  (forall bc pre blk post tpre tx tx' tpost,
     chain bc = (pre ++ blk :: post)%list -> is_valid bc = true ->
     transactions blk = (tpre ++ tx :: tpost)%list ->
     tx_hash_text tx' = tx_hash_text tx ->
     is_valid (set_chain bc
       (pre ++ set_transactions blk (tpre ++ tx' :: tpost)%list :: post)%list) = true) /\
  (forall bc g g' post,
     chain bc = g :: post -> hash g' = hash g ->
     is_valid (set_chain bc (g' :: post)) = is_valid bc).
Proof.
  split; [exact is_valid_add_block|]. split; [|split; [|split]].
  - intros bc b0 pre blk post n Hc Hv Hn. split; [now apply block_data_nonce|].
    exact (is_valid_tamper bc b0 pre blk (set_nonce blk n) post Hc Hv eq_refl eq_refl).
  - intros bc b0 pre blk post tpre tx tx' tpost Hc Hv Ht Hx. split.
    + intros E. apply Hx. apply (proj1 (block_data_tx blk tpre tx tx' tpost Ht) E).
    + exact (is_valid_tamper bc b0 pre blk (set_transactions blk (tpre ++ tx' :: tpost))
               post Hc Hv eq_refl eq_refl).
  - intros bc pre blk post tpre tx tx' tpost Hc Hv Ht Hx.
    pose proof (proj2 (block_data_tx blk tpre tx tx' tpost Ht) Hx) as Ed.
    destruct pre as [|b0 pre].
    + unfold is_valid in *; rewrite Hc in Hv; cbn [chain set_chain app].
      rewrite (is_valid_from_prev (set_transactions blk (tpre ++ tx' :: tpost)) blk post eq_refl).
      exact Hv.
    + apply (is_valid_tamper bc b0 pre blk (set_transactions blk (tpre ++ tx' :: tpost))
               post Hc Hv eq_refl eq_refl).
      unfold compute_hash. now rewrite Ed.
  - intros bc g g' post Hc Hh. unfold is_valid; rewrite Hc; cbn [chain set_chain].
    apply is_valid_from_prev, Hh.
Qed.


(** ** Further properties of the core and of the protocols *)

Lemma set_nonce_set_nonce (b : Block) (n m : Z) :
  set_nonce (set_nonce b n) m = set_nonce b m.
Proof. reflexivity. Qed.

Lemma set_nonce_same (b : Block) : set_nonce b (nonce b) = b.
Proof. destruct b; reflexivity. Qed.

Lemma fold_add_transaction (txs : list Transaction) (bc : Blockchain) :
  chain (fold_left add_transaction txs bc) = chain bc /\
  pending_transactions (fold_left add_transaction txs bc) =
    (pending_transactions bc ++ txs)%list /\
  difficulty (fold_left add_transaction txs bc) = difficulty bc.
Proof.
  revert bc; induction txs as [|tx txs IH]; intros bc; cbn [fold_left].
  - rewrite app_nil_r. auto.
  - destruct (IH (add_transaction bc tx)) as (E1 & E2 & E3).
    rewrite E1, E2, E3. cbn. rewrite <- app_assoc. auto.
Qed.

Lemma latest_block_same_chain (bc bc' : Blockchain) :
  chain bc' = chain bc -> latest_block bc' = latest_block bc.
Proof. unfold latest_block; intros ->; reflexivity. Qed.

(** X1. A block drafted by [create_next_block] on a chain with a tip [lb]
    takes the chain's height as its index and the given validator, and the
    draft leaves the chain's blocks as they were; stamped with its own
    hash, the draft is appended by [add_block] when the tip has a hash, and
    rejected, with the chain unchanged, when the tip has none. *)
Theorem create_next_block_then_add bc txs_arg v now blk bc1 lb :
  latest_block bc = Some lb ->
  create_next_block bc txs_arg v now = Some (blk, bc1) ->
  index blk = height bc /\ validator blk = v /\ chain bc1 = chain bc /\
  (hash lb <> None ->
     add_block bc1 (set_hash blk (Some (compute_hash blk))) =
       Some (true, set_chain bc1 (chain bc ++ [set_hash blk (Some (compute_hash blk))])%list)) /\
  (hash lb = None ->
     add_block bc1 (set_hash blk (Some (compute_hash blk))) = Some (false, bc1)).
Proof.
  intros Hl Hc.
  assert (Hch : chain bc1 = chain bc).
  { unfold create_next_block in Hc; rewrite Hl in Hc. injection Hc as _ <-.
    destruct txs_arg; reflexivity. }
  assert (Hl1 : latest_block bc1 = Some lb) by (rewrite (latest_block_same_chain _ _ Hch); exact Hl).
  unfold create_next_block in Hc; rewrite Hl in Hc. injection Hc as <- _.
  split; [reflexivity|]. split; [reflexivity|]. split; [exact Hch|].
  unfold add_block. rewrite Hl1. rewrite Hch. cbn [previous_hash hash set_hash].
  rewrite compute_hash_set_hash. split.
  - intros Hh. destruct (hash lb) as [h|]; [|congruence].
    destruct (String.eqb h EmptyString) eqn:He.
    + apply String.eqb_eq in He; subst h. cbn. rewrite String.eqb_refl. reflexivity.
    + cbn. rewrite !String.eqb_refl. reflexivity.
  - intros ->. reflexivity.
Qed.

(** X2. Transactions added with [add_transaction] wait in the pool in the
    order they were added.  [create_next_block] without explicit
    transactions puts the whole pool, in that order, into the new block and
    empties the pool, leaving the blocks and the difficulty alone; with
    explicit transactions it uses exactly those and leaves the chain object
    (pool included) as it was. *)
Theorem pending_pool_roundtrip bc txs v now :
  chain bc <> [] ->
  (exists blk bc1,
     create_next_block (fold_left add_transaction txs bc) None v now = Some (blk, bc1) /\
     transactions blk = (pending_transactions bc ++ txs)%list /\
     pending_transactions bc1 = [] /\ chain bc1 = chain bc /\
     difficulty bc1 = difficulty bc) /\
  (forall txs', exists blk,
     create_next_block bc (Some txs') v now = Some (blk, bc) /\ transactions blk = txs').
Proof.
  intros Hne. destruct (latest_block_nonempty bc Hne) as [lb Hl].
  destruct (fold_add_transaction txs bc) as (E1 & E2 & E3). split.
  - unfold create_next_block.
    rewrite (latest_block_same_chain _ _ E1), Hl.
    do 2 eexists. split; [reflexivity|]. cbn. rewrite E1, E2, E3. auto.
  - intros txs'. unfold create_next_block. rewrite Hl. eexists. split; reflexivity.
Qed.

(** X3. [mine] tries the nonces from the block's own nonce upwards and
    stops at the first that meets the target: when it returns, the block it
    returns is the input block with nonce [nonce b + k] (for a [k] below
    the number of iterations run) and with its hash set to [h], [h] is the
    hash of that block and meets the target, and none of the [k] nonces
    tried before meets it. *)
Theorem mine_first_nonce fuel d b h b' :
  mine fuel d b = Some (h, b') ->
  exists k, (k < fuel)%nat /\
    b' = set_hash (set_nonce b (nonce b + Z.of_nat k)) (Some h) /\
    h = compute_hash (set_nonce b (nonce b + Z.of_nat k)) /\
    String.prefix (str_repeat "0" d) h = true /\
    forall j, (j < k)%nat ->
      String.prefix (str_repeat "0" d)
        (compute_hash (set_nonce b (nonce b + Z.of_nat j))) = false.
Proof.
  revert b; induction fuel as [|fuel IH]; intros b Hm; cbn [mine] in Hm; [discriminate|].
  destruct (String.prefix (str_repeat "0" d) (compute_hash b)) eqn:Ep.
  - injection Hm as <- <-. exists 0%nat. rewrite Z.add_0_r, set_nonce_same.
    split; [lia|]. split; [reflexivity|]. split; [reflexivity|]. split; [exact Ep|].
    intros j Hj; lia.
  - destruct (IH _ Hm) as (k & Hk & Eb & Eh & Hp & Hbefore).
    cbn [nonce set_nonce] in Eb, Eh, Hbefore. rewrite set_nonce_set_nonce in Eb, Eh.
    exists (S k). split; [lia|].
    replace (nonce b + Z.of_nat (S k)) with (nonce b + 1 + Z.of_nat k) by lia.
    split; [exact Eb|]. split; [exact Eh|]. split; [exact Hp|].
    intros [|j] Hj.
    + rewrite Z.add_0_r, set_nonce_same. exact Ep.
    + pose proof (Hbefore j ltac:(lia)) as Hb. rewrite set_nonce_set_nonce in Hb.
      replace (nonce b + Z.of_nat (S j)) with (nonce b + 1 + Z.of_nat j) by lia. exact Hb.
Qed.

Lemma shape_valid {S} (bc bc' : Blockchain) (o : PyResult S) :
  round_shape bc o -> is_valid bc = true -> outcome_chain o = Some bc' ->
  is_valid bc' = true.
Proof.
  destruct o as [r st bc2|e st bc2|]; cbn [round_shape outcome_chain];
    intros Hs Hv E; [| |discriminate]; injection E as <-.
  - destruct Hs as [(_ & _ & ->)|(b & _ & Ha)]; [exact Hv|].
    apply add_block_cases in Ha as Hc. destruct Hc as [(Hs & _)|(_ & ->)]; [|exact Hv].
    rewrite Hs in Ha. exact (is_valid_add_block _ _ _ Hv Ha).
  - subst; exact Hv.
Qed.

(** X4. No protocol's [run_round] breaks a valid chain: when [is_valid]
    holds before the call, it holds for the chain the call leaves, whether
    the call returns or raises. *)
Theorem run_round_keeps_chain_valid :
  (forall fuel st bc txs nodes env bc', is_valid bc = true ->
     outcome_chain (PoW.run_round fuel st bc txs nodes env) = Some bc' ->
     is_valid bc' = true) /\
  (forall st bc txs nodes env bc', is_valid bc = true ->
     outcome_chain (PoS.run_round st bc txs nodes env) = Some bc' ->
     is_valid bc' = true) /\
  (forall st bc txs nodes env bc', is_valid bc = true ->
     outcome_chain (DPoS.run_round st bc txs nodes env) = Some bc' ->
     is_valid bc' = true) /\
  (forall st bc txs nodes env bc', is_valid bc = true ->
     outcome_chain (PBFT.run_round st bc txs nodes env) = Some bc' ->
     is_valid bc' = true).
Proof.
  repeat split; intros ? ? ? ? ? ? ? Hv Ho || intros ? ? ? ? ? ? Hv Ho;
    (eapply shape_valid; [|exact Hv|exact Ho]);
    first [apply pow_shape|apply pos_shape|apply dpos_shape|apply pbft_shape].
Qed.


Lemma pbft_init_bounds nodes f js st0 :
  PBFT.init nodes f js = inr st0 -> 0 <= f /\ 3 * f + 1 <= Z.of_nat (List.length nodes).
Proof.
  unfold PBFT.init, random_sample. destruct (Z.gtb f _) eqn:Eg; [discriminate|].
  destruct (Z.leb 0 f && _) eqn:Er; [|discriminate]. intros _.
  apply andb_true_iff in Er as [E1 _]. apply Z.leb_le in E1.
  rewrite Z.gtb_ltb in Eg; apply Z.ltb_ge in Eg.
  pose proof (Z.mul_div_le (Z.of_nat (List.length nodes) - 1) 3 ltac:(lia)). lia.
Qed.

Lemma pbft_live_step nodes f js st0 st bc lb txs nodes' env :
  NoDup nodes -> PBFT.init nodes f js = inr st0 ->
  reach PBFT.run_round st0 st ->
  latest_block bc = Some lb -> hash lb <> None ->
  exists r st' bc',
    PBFT.run_round st bc txs nodes' env = Returned r st' bc' /\
    success r = true /\ rounds r = 3 /\
    exists b, block r = Some b /\ chain bc' = (chain bc ++ [b])%list.
Proof.
  intros Hnd Hinit Hr Hl Hh.
  destruct (pbft_init_bounds nodes f js st0 Hinit) as [Hf0 Hfn].
  destruct (pbft_init_honest nodes f js st0 Hnd Hinit) as (byz & Hb & Hp & Hn & Hf).
  pose proof (pbft_reach_roster _ _ Hr) as R. unfold roster in R.
  assert (Hp' : PBFT.phase_prepare st = PBFT.phase_prepare st0)
    by exact (f_equal (fun r => fst (fst r)) R).
  assert (Hf' : PBFT.byzantine_count st = PBFT.byzantine_count st0)
    by exact (f_equal (fun r => snd (fst r)) R).
  assert (Hn' : PBFT.node_list st = PBFT.node_list st0)
    by exact (f_equal (fun r => snd r) R).
  apply (pbft_round_success st bc lb txs nodes' env); auto.
  - rewrite Hp', Hp. now apply NoDup_filter.
  - unfold PBFT.quorum. rewrite Hf', Hf, Hp', Hp.
    pose proof (honest_count nodes byz Hnd) as Hc.
    apply (f_equal Z.of_nat) in Hb. rewrite Z2Nat.id in Hb by exact Hf0. lia.
  - rewrite Hn', Hn. destruct nodes; [cbn [List.length Z.of_nat] in Hfn; lia|congruence].
Qed.

(** X5. Every PBFT instance constructed over distinct addresses is live,
    for any [n] and [f] the constructor accepts: in every state reachable
    from it, [run_round] on a chain whose latest block has a hash returns
    [success = true] with [rounds = 3] and appends the proposed block. *)
Theorem pbft_liveness nodes f js st0 st bc lb txs nodes' env :
  NoDup nodes -> PBFT.init nodes f js = inr st0 ->
  reach PBFT.run_round st0 st ->
  latest_block bc = Some lb -> hash lb <> None ->
  exists r st' bc',
    PBFT.run_round st bc txs nodes' env = Returned r st' bc' /\
    success r = true /\ rounds r = 3 /\
    exists b, block r = Some b /\ chain bc' = (chain bc ++ [b])%list.
Proof. exact (pbft_live_step nodes f js st0 st bc lb txs nodes' env). Qed.

Lemma pbft_step st bc txs nodes env :
  PBFT.node_list st <> [] -> chain bc <> [] ->
  exists r st' bc',
    PBFT.run_round st bc txs nodes env = Returned r st' bc' /\
    proposer r = Some (nth (Z.to_nat (PBFT.view st
                             mod Z.of_nat (List.length (PBFT.node_list st))))
                           (PBFT.node_list st) EmptyString) /\
    PBFT.view st' = PBFT.view st + 1 /\
    PBFT.node_list st' = PBFT.node_list st /\
    chain bc' <> [].
Proof.
  intros Hn Hc. destruct (latest_block_nonempty bc Hc) as [lb Hl].
  unfold PBFT.run_round. cbv zeta.
  change (PBFT.node_list (PBFT.reset_round st)) with (PBFT.node_list st).
  change (PBFT.view (PBFT.reset_round st)) with (PBFT.view st).
  destruct (Z.eqb _ 0) eqn:En.
  { apply Z.eqb_eq in En. destruct (PBFT.node_list st); [congruence|]. simpl in En; lia. }
  unfold create_next_block at 1. rewrite Hl.
  unfold PBFT.phase_commit.
  match goal with |- context [if Z.leb ?a ?c then _ else _] => destruct (Z.leb a c) end.
  - match goal with |- context [add_block bc ?b] =>
      destruct (add_block_some bc b lb Hl) as [[added bc2] Ea]; rewrite Ea end.
    do 3 eexists. split; [reflexivity|]. split; [reflexivity|].
    split; [reflexivity|]. split; [reflexivity|].
    apply add_block_cases in Ea as [(_ & ->)|(_ & ->)]; [|exact Hc].
    cbn. destruct (chain bc); discriminate.
  - do 3 eexists. split; [reflexivity|]. split; [reflexivity|].
    split; [reflexivity|]. split; [reflexivity|exact Hc].
Qed.

Lemma pbft_run_seq_proposers st bc txs nodes envs :
  PBFT.node_list st <> [] -> chain bc <> [] ->
  map outcome_proposer
      (run_seq (fun s b e => PBFT.run_round s b txs nodes e) st bc envs) =
  map (fun i => Some (nth (Z.to_nat ((PBFT.view st + Z.of_nat i)
                                     mod Z.of_nat (List.length (PBFT.node_list st))))
                          (PBFT.node_list st) EmptyString))
      (seq 0 (List.length envs)).
Proof.
  revert st bc; induction envs as [|e es IH]; intros st bc Ha Hc; [reflexivity|].
  destruct (pbft_step st bc txs nodes e Ha Hc) as (r & st' & bc' & E & Hp & Hv & Hnl & Hc').
  cbn [run_seq]. rewrite E. cbn [map outcome_proposer List.length seq].
  rewrite Hp, Z.add_0_r. f_equal.
  rewrite IH by congruence. rewrite <- seq_shift, map_map. apply map_ext.
  intros i. rewrite Hv, Hnl. f_equal. f_equal. f_equal. f_equal. lia.
Qed.

(** X6. PBFT takes its leader from the view: with an empty node list
    [run_round] raises ZeroDivisionError (from [view % n]) and leaves the
    chain as it was; otherwise, on a chain with a block, the call returns,
    its proposer is the node at position [view mod n] of the node list, the
    view grows by one and the node list is kept.  Hence [n] consecutive
    calls over distinct nodes propose each node exactly once. *)
Theorem pbft_leader_rotation st bc txs nodes env envs :
  (PBFT.node_list st = [] ->
     exists st', PBFT.run_round st bc txs nodes env = Raised ZeroDivisionError st' bc) /\
  (PBFT.node_list st <> [] -> chain bc <> [] ->
     exists r st' bc',
       PBFT.run_round st bc txs nodes env = Returned r st' bc' /\
       proposer r = Some (nth (Z.to_nat (PBFT.view st
                                mod Z.of_nat (List.length (PBFT.node_list st))))
                              (PBFT.node_list st) EmptyString) /\
       PBFT.view st' = PBFT.view st + 1 /\
       PBFT.node_list st' = PBFT.node_list st) /\
  (NoDup (PBFT.node_list st) -> chain bc <> [] ->
   List.length envs = List.length (PBFT.node_list st) ->
   Permutation
     (map outcome_proposer
        (run_seq (fun s b e => PBFT.run_round s b txs nodes e) st bc envs))
     (map Some (PBFT.node_list st))).
Proof.
  split; [|split].
  - intros He. unfold PBFT.run_round. cbv zeta.
    change (PBFT.node_list (PBFT.reset_round st)) with (PBFT.node_list st). rewrite He.
    eexists; reflexivity.
  - intros Hn Hc.
    destruct (pbft_step st bc txs nodes env Hn Hc) as (r & st' & bc' & E & Hp & Hv & Hnl & _).
    exists r, st', bc'. auto.
  - intros Hnd Hc Hlen. destruct (PBFT.node_list st) as [|a l] eqn:E.
    + destruct envs; [apply Permutation_refl|discriminate].
    + rewrite pbft_run_seq_proposers by (congruence || exact Hc).
      rewrite E, Hlen, <- (map_map (fun i => nth _ _ _) Some).
      apply Permutation_map. rewrite <- E at 2. rewrite <- E in Hnd |- *.
      apply (rotation_perm (PBFT.node_list st) (PBFT.view st) Hnd).
Qed.


(** ** ProofOfStake._select_validator and random.choices *)












(** ** PoS state along a run *)





Lemma dict_get_in {A} (k : string) (v : A) (d : list (string * A)) :
  In (k, v) d -> exists v', dict_get k d = Some v'.
Proof.
  induction d as [|[k' v'] t IH]; simpl; [intros []|]. intros [E|Hin].
  - injection E as -> ->. rewrite String.eqb_refl. eauto.
  - destruct (String.eqb k k'); eauto.
Qed.





(** ** DelegatedProofOfStake: election and block counters *)







Lemma dpos_init_cands (vs : list (string * Q)) (num : Z) (js : list nat) :
  NoDup (map fst (DPoS.candidates (DPoS.init vs num js))) /\
  Forall (fun kv => DPoS.address (snd kv) = fst kv) (DPoS.candidates (DPoS.init vs num js)).
Proof.
  apply dict_of_list_props. apply Forall_forall. intros kv Hin.
  apply in_map_iff in Hin as (? & <- & _). reflexivity.
Qed.

Lemma py_slice_to_firstn {A} (l : list A) (k : Z) :
  exists m, py_slice_to l k = firstn m l.
Proof. unfold py_slice_to. destruct (Z.leb 0 k); eauto. Qed.



Lemma dpos_bump_fixed (p : string) (cs : list (string * DPoS.Delegate)) :
  map (fun kv => (fst kv, DPoS.address (snd kv), DPoS.votes (snd kv))) (DPoS.bump_produced p cs) =
  map (fun kv => (fst kv, DPoS.address (snd kv), DPoS.votes (snd kv))) cs.
Proof.
  unfold DPoS.bump_produced. rewrite map_map. apply map_ext. intros kv.
  destruct (String.eqb (fst kv) p); reflexivity.
Qed.

Lemma dpos_bump_notin (p : string) (cs : list (string * DPoS.Delegate)) :
  ~ In p (map fst cs) -> DPoS.bump_produced p cs = cs.
Proof.
  induction cs as [|[k d] t IH]; intros Hn; [reflexivity|].
  unfold DPoS.bump_produced in *. cbn [map fst snd] in *.
  destruct (String.eqb k p) eqn:E.
  - apply String.eqb_eq in E. subst. exfalso; apply Hn; left; reflexivity.
  - rewrite IH; [reflexivity|]. intros Hi; apply Hn; right; exact Hi.
Qed.

Lemma dpos_bump_sum (p : string) (cs : list (string * DPoS.Delegate)) :
  NoDup (map fst cs) -> In p (map fst cs) ->
  fold_right Z.add 0 (map (fun kv => DPoS.blocks_produced (snd kv)) (DPoS.bump_produced p cs)) =
  fold_right Z.add 0 (map (fun kv => DPoS.blocks_produced (snd kv)) cs) + 1.
Proof.
  induction cs as [|[k d] t IH]; intros Hn Hi; [destruct Hi|].
  inversion Hn as [|? ? Hk Ht]; subst.
  change (DPoS.bump_produced p ((k, d) :: t))
    with ((if String.eqb k p
           then (k, DPoS.mkDelegate (DPoS.address d) (DPoS.votes d) (DPoS.blocks_produced d + 1))
           else (k, d)) :: DPoS.bump_produced p t).
  destruct (String.eqb k p) eqn:E.
  - apply String.eqb_eq in E; subst. rewrite dpos_bump_notin by exact Hk. cbn. lia.
  - cbn [map fold_right snd]. rewrite IH; [lia|exact Ht|].
    destruct Hi as [Hi|Hi]; [|exact Hi]. cbn in Hi. subst. rewrite String.eqb_refl in E. discriminate.
Qed.

Lemma dpos_cands_step st bc txs nodes env :
  match DPoS.run_round st bc txs nodes env with
  | Returned _ st' _ | Raised _ st' _ =>
      DPoS.candidates st' = DPoS.candidates st \/
      exists p, DPoS.candidates st' = DPoS.bump_produced p (DPoS.candidates st)
  | Running => True
  end.
Proof.
  unfold DPoS.run_round. destruct (DPoS.current_delegate st) as [dlg|]; [|auto].
  destruct (create_next_block _ _ _ _) as [[blk bc1]|]; [|auto].
  destruct (add_block _ _) as [[added bc2]|]; [|auto]. cbn [DPoS.candidates].
  destruct (added && _); eauto.
Qed.

Lemma dpos_reach_cands st0 st :
  reach DPoS.run_round st0 st ->
  map (fun kv => (fst kv, DPoS.address (snd kv), DPoS.votes (snd kv))) (DPoS.candidates st) =
  map (fun kv => (fst kv, DPoS.address (snd kv), DPoS.votes (snd kv))) (DPoS.candidates st0).
Proof.
  induction 1 as [|st bc txs nodes env r st' bc' _ IH E|st bc txs nodes env e st' bc' _ IH E];
    [reflexivity| |];
    pose proof (dpos_cands_step st bc txs nodes env) as P; rewrite E in P;
    destruct P as [P|(p & P)]; rewrite P, ?dpos_bump_fixed; exact IH.
Qed.

Lemma dpos_keys_of_triples (cs cs' : list (string * DPoS.Delegate)) :
  map (fun kv => (fst kv, DPoS.address (snd kv), DPoS.votes (snd kv))) cs =
  map (fun kv => (fst kv, DPoS.address (snd kv), DPoS.votes (snd kv))) cs' ->
  map fst cs = map fst cs'.
Proof.
  intros E. apply (f_equal (map (fun t => fst (fst t)))) in E.
  rewrite !map_map in E. exact E.
Qed.

Lemma dpos_init_active_keys vs num js a :
  In a (DPoS.active_delegates (DPoS.init vs num js)) ->
  In a (map fst (DPoS.candidates (DPoS.init vs num js))).
Proof.
  destruct (dpos_init_cands vs num js) as [_ Hf].
  set (cands := DPoS.candidates (DPoS.init vs num js)) in *.
  change (DPoS.active_delegates (DPoS.init vs num js))
    with (shuffle EmptyString js
            (map DPoS.address (py_slice_to (DPoS.sort_by_votes_desc (map snd cands)) num))).
  intros Ha. apply (Permutation_in _ (shuffle_perm _ _ _)) in Ha.
  destruct (py_slice_to_firstn (DPoS.sort_by_votes_desc (map snd cands)) num) as [m Em].
  rewrite Em in Ha. apply in_map_iff in Ha as (d & <- & Hd).
  assert (Hd' : In d (DPoS.sort_by_votes_desc (map snd cands))) by (rewrite <- (firstn_skipn m); apply in_or_app; left; exact Hd); clear Hd; rename Hd' into Hd.
  apply (Permutation_in _ (sort_by_votes_desc_perm _)) in Hd.
  apply in_map_iff in Hd as ([k d'] & Ek & Hk). cbn in Ek; subst d'.
  rewrite Forall_forall in Hf. specialize (Hf _ Hk); cbn in Hf; rewrite Hf. apply in_map_iff. exists (k, d); auto.
Qed.

Lemma dpos_current_in (st : DPoS.DelegatedProofOfStake) (d : string) :
  DPoS.current_delegate st = Some d -> In d (DPoS.active_delegates st).
Proof.
  unfold DPoS.current_delegate. destruct (DPoS.active_delegates st); [discriminate|].
  apply nth_error_In.
Qed.

(** X10. In every DPoS state reachable from construction, the candidates'
    keys, addresses and votes are those set at construction.  A returned
    round that added its block raises the [blocks_produced] of exactly its
    proposer, a candidate, by one, so the candidates' total grows by one;
    a returned round whose block was rejected leaves every count as it
    was. *)
Theorem dpos_block_counters vs num js st bc txs nodes env r st' bc' :
  reach DPoS.run_round (DPoS.init vs num js) st ->
  DPoS.run_round st bc txs nodes env = Returned r st' bc' ->
  map (fun kv => (fst kv, DPoS.address (snd kv), DPoS.votes (snd kv))) (DPoS.candidates st') =
  map (fun kv => (fst kv, DPoS.address (snd kv), DPoS.votes (snd kv)))
      (DPoS.candidates (DPoS.init vs num js)) /\
  fold_right Z.add 0 (map (fun kv => DPoS.blocks_produced (snd kv)) (DPoS.candidates st')) =
  fold_right Z.add 0 (map (fun kv => DPoS.blocks_produced (snd kv)) (DPoS.candidates st))
    + (if success r then 1 else 0) /\
  (success r = true ->
   exists p, proposer r = Some p /\ dict_mem p (DPoS.candidates st) = true /\
     DPoS.candidates st' = DPoS.bump_produced p (DPoS.candidates st)) /\
  (success r = false -> DPoS.candidates st' = DPoS.candidates st).
Proof.
  intros Hr E.
  pose proof (dpos_reach_cands _ _ Hr) as Htr.
  pose proof (dpos_keys_of_triples _ _ Htr) as Hkeys.
  pose proof (dpos_reach_active _ _ Hr) as Hact.
  destruct (dpos_init_cands vs num js) as [Hn _].
  rewrite <- Hkeys in Hn.
  unfold DPoS.run_round in E. destruct (DPoS.current_delegate st) as [dlg|] eqn:Ec.
  - destruct (create_next_block _ _ _ _) as [[blk0 bc1]|]; [|discriminate].
    destruct (add_block _ _) as [[added bc2]|]; [|discriminate].
    injection E as <- <- <-. cbn [success proposer DPoS.candidates].
    assert (Hin : In dlg (map fst (DPoS.candidates st))).
    { rewrite Hkeys. apply dpos_init_active_keys. rewrite <- Hact. apply dpos_current_in, Ec. }
    assert (Hmem : dict_mem dlg (DPoS.candidates st) = true).
    { apply in_map_iff in Hin as ([k d] & Ek & Hk). cbn in Ek; subst k.
      destruct (dict_get_in dlg d _ Hk) as (v & Hv). unfold dict_mem; rewrite Hv; reflexivity. }
    rewrite Hmem, andb_true_r. destruct added.
    + split; [rewrite dpos_bump_fixed; exact Htr|].
      split; [apply dpos_bump_sum; assumption|].
      split; [|discriminate]. intros _. exists dlg. auto.
    + split; [exact Htr|]. split; [lia|]. split; [discriminate|auto].
  - injection E as <- <- <-. cbn.
    split; [exact Htr|]. split; [lia|]. split; [discriminate|auto].
Qed.


(** ** ProofOfWork.run_round: the mined block *)

Lemma mine_result fuel d b h b' :
  mine fuel d b = Some (h, b') ->
  exists n, b' = set_hash (set_nonce b n) (Some h) /\ h = compute_hash (set_nonce b n) /\
    String.prefix (str_repeat "0" d) h = true.
Proof.
  revert b; induction fuel as [|fuel IH]; intros b Hm; cbn [mine] in Hm; [discriminate|].
  destruct (String.prefix _ (compute_hash b)) eqn:Ep.
  - injection Hm as <- <-. exists (nonce b). rewrite set_nonce_same. auto.
  - destruct (IH _ Hm) as (n & Eb & Eh & Hp). rewrite set_nonce_set_nonce in Eb, Eh. eauto.
Qed.

(** X11. On a chain whose latest block has a hash, a PoW round that returns
    leaves the protocol state alone.  With no nodes it reports failure and
    leaves the chain unchanged; otherwise the miner is one of the nodes, the
    round succeeds, and the chain gets exactly one new block: the mined one,
    with the miner as validator, the given transactions, index [height],
    and a hash that is its own recomputed hash and starts with [difficulty]
    zeros. *)
Theorem pow_round_appends_mined_block fuel st bc txs nodes env lb r st' bc' :
  latest_block bc = Some lb -> hash lb <> None ->
  PoW.run_round fuel st bc txs nodes env = Returned r st' bc' ->
  st' = st /\
  (nodes = [] -> success r = false /\ bc' = bc) /\
  (nodes <> [] ->
   exists miner blk h,
     In miner nodes /\ success r = true /\ proposer r = Some miner /\ block r = Some blk /\
     bc' = set_chain bc (chain bc ++ [blk])%list /\
     validator blk = Some miner /\ transactions blk = txs /\ index blk = height bc /\
     hash blk = Some h /\ h = compute_hash blk /\
     String.prefix (str_repeat "0" (PoW.difficulty st)) h = true).
Proof.
  intros Hl Hh E. unfold PoW.run_round in E. destruct nodes as [|n0 ns].
  - injection E as <- <- <-. split; [reflexivity|]. split; [auto|]. congruence.
  - destruct (py_choice (n0 :: ns) (env_randbelow env)) as [miner|] eqn:Ep; [|discriminate].
    destruct (create_next_block bc (Some txs) (Some miner) (env_now env)) as [[blk bc1]|] eqn:Ec;
      [|discriminate].
    pose proof Ec as Ek. apply create_next_block_keeps in Ek; subst bc1.
    assert (Hblk : index blk = height bc /\ validator blk = Some miner /\ transactions blk = txs /\
                   opt_eqb (Some (previous_hash blk)) (hash lb) = true).
    { unfold create_next_block in Ec; rewrite Hl in Ec; injection Ec as <-.
      split; [reflexivity|]. split; [reflexivity|]. split; [reflexivity|].
      cbn [previous_hash]. destruct (hash lb) as [h0|]; [|congruence].
      destruct (String.eqb h0 EmptyString) eqn:He; cbn [opt_eqb].
      - apply String.eqb_eq in He; subst h0. reflexivity.
      - apply String.eqb_refl. }
    destruct Hblk as (Hi & Hv & Ht & Hprev).
    destruct (mine fuel (PoW.difficulty st) blk) as [[h blk']|] eqn:Em; [|discriminate].
    destruct (mine_result _ _ _ _ _ Em) as (n & -> & Eh & Hp).
    unfold add_block in E. rewrite Hl in E.
    change (previous_hash (set_hash (set_nonce blk n) (Some h))) with (previous_hash blk) in E.
    rewrite Hprev in E. cbn [negb hash set_hash] in E.
    rewrite compute_hash_set_hash, <- Eh, String.eqb_refl in E. cbn [negb] in E.
    injection E as <- <- <-.
    split; [reflexivity|]. split; [congruence|]. intros _.
    exists miner, (set_hash (set_nonce blk n) (Some h)), h.
    split; [exact (nth_error_In _ _ Ep)|].
    split; [reflexivity|]. split; [reflexivity|]. split; [reflexivity|]. split; [reflexivity|].
    split; [exact Hv|]. split; [exact Ht|]. split; [exact Hi|]. split; [reflexivity|].
    split; [rewrite compute_hash_set_hash; exact Eh|exact Hp].
Qed.


(** ** NetworkSimulator._generate_transactions *)

Lemma nth_list_set_eq {A} (l : list A) (j : nat) (v d : A) :
  (j < List.length l)%nat -> nth j (list_set l j v) d = v.
Proof.
  revert j; induction l as [|x t IH]; intros [|j] Hj; cbn in *; try lia; auto.
  apply IH; lia.
Qed.

Lemma nth_list_set_neq {A} (l : list A) (i j : nat) (v d : A) :
  i <> j -> nth i (list_set l j v) d = nth i l d.
Proof.
  revert i j; induction l as [|x t IH]; intros [|i] [|j] Hij; cbn; auto; try lia.
Qed.

(** [random.sample(pool, 2)] takes two entries at distinct positions. *)
Lemma sample_two_positions {A} (d : A) (js : list nat) (pool : list A) :
  (2 <= List.length pool)%nat ->
  exists i k, (i < List.length pool)%nat /\ (k < List.length pool)%nat /\ i <> k /\
    sample_pool d 2 (List.length pool) 0 js pool = [nth i pool d; nth k pool d].
Proof.
  intros Hn. set (n := List.length pool) in *. cbn [sample_pool].
  set (j1 := Nat.modulo (hd O js) (n - 0)).
  set (j2 := Nat.modulo (hd O (tl js)) (n - 1)).
  assert (H1 : (j1 < n)%nat) by (pose proof (Nat.mod_upper_bound (hd O js) (n - 0)); subst j1; lia).
  assert (H2 : (j2 < n - 1)%nat)
    by (pose proof (Nat.mod_upper_bound (hd O (tl js)) (n - 1)); subst j2; lia).
  destruct (Nat.eq_dec j2 j1) as [E|E].
  - exists j1, (n - 0 - 1)%nat. rewrite E, nth_list_set_eq by exact H1.
    repeat split; lia.
  - exists j1, j2. rewrite nth_list_set_neq by exact E. repeat split; lia.
Qed.

(** X12. [_generate_transactions(count)] makes no transaction when the
    simulator has fewer than two nodes, and [count] of them otherwise (none
    for a negative count).  Sender and recipient are addresses of the
    simulator's nodes, and when the node addresses are distinct no
    transaction is sent from a node to itself. *)
Theorem generate_transactions_between_nodes nodes count draws :
  List.length (Sim.generate_transactions nodes count draws) =
    (if Nat.ltb (List.length nodes) 2 then O else Z.to_nat count) /\
  Forall (fun tx => In (sender tx) (map Sim.address nodes) /\
                    In (recipient tx) (map Sim.address nodes) /\
                    (NoDup (map Sim.address nodes) -> sender tx <> recipient tx))
    (Sim.generate_transactions nodes count draws).
Proof.
  unfold Sim.generate_transactions. destruct (Nat.ltb (List.length nodes) 2) eqn:E.
  - split; [reflexivity|constructor].
  - apply Nat.ltb_ge in E. split; [rewrite length_map, length_seq; reflexivity|].
    apply Forall_forall. intros tx Hin. apply in_map_iff in Hin as (k & <- & _).
    destruct (sample_two_positions Sim.no_node (Sim.draw_sample (draws k)) nodes E)
      as (i & j & Hi & Hj & Hij & ->).
    cbn [nth new_transaction sender recipient].
    split; [apply in_map, nth_In, Hi|]. split; [apply in_map, nth_In, Hj|].
    intros Hn Heq. apply Hij.
    apply (proj1 (NoDup_nth (map Sim.address nodes) (Sim.address Sim.no_node)) Hn);
      rewrite ?length_map; try assumption.
    rewrite !map_nth. exact Heq.
Qed.


(** ** NetworkSimulator.run *)

Lemma credit_addresses (p : option string) (nodes : list Sim.NetworkNode) :
  map Sim.address (Sim.credit p nodes) = map Sim.address nodes.
Proof.
  unfold Sim.credit. rewrite map_map. apply map_ext. intros nd.
  destruct (opt_eqb _ _); reflexivity.
Qed.

Lemma credit_length (p : option string) (nodes : list Sim.NetworkNode) :
  List.length (Sim.credit p nodes) = List.length nodes.
Proof. unfold Sim.credit. apply length_map. Qed.

Lemma generate_transactions_length nodes count draws :
  List.length (Sim.generate_transactions nodes count draws) =
    (if Nat.ltb (List.length nodes) 2 then O else Z.to_nat count).
Proof.
  unfold Sim.generate_transactions. destruct (Nat.ltb _ 2); [reflexivity|].
  rewrite length_map, length_seq; reflexivity.
Qed.

Lemma run_loop_accounting {St} rr inputs tpr addrs (k : nat) :
  forall i nodes (st : St) bc total rounds nodes' st' bc' total' rounds',
  Sim.run_loop rr inputs tpr addrs k i nodes st bc total rounds =
    Sim.LoopDone nodes' st' bc' total' rounds' ->
  exists new, rounds' = (rounds ++ new)%list /\
    map Sim.round_number new = map (fun m => i + Z.of_nat m) (seq 0 k) /\
    total' = total + Z.of_nat (List.length (filter (fun r => success (Sim.consensus_result r)) new))
                     * Z.of_nat (if Nat.ltb (List.length nodes) 2 then O else Z.to_nat tpr) /\
    map Sim.address nodes' = map Sim.address nodes.
Proof.
  induction k as [|k IH]; intros i nodes st bc total rounds nodes' st' bc' total' rounds' E;
    cbn [Sim.run_loop] in E.
  - injection E as <- <- <- <- <-. exists []. rewrite app_nil_r. cbn. repeat split; lia.
  - destruct (inputs i) as [draws env].
    destruct (rr st bc _ addrs env) as [res st1 bc1|e st1 bc1|]; [|discriminate|discriminate].
    apply IH in E as (new & -> & Hn & Ht & Ha).
    set (R := Sim.mkRoundResult i res (height bc1)
                (Z.of_nat (List.length (pending_transactions bc1)))) in *.
    exists (R :: new). rewrite <- app_assoc. split; [reflexivity|].
    assert (Hlen : List.length (if success res then Sim.credit (proposer res) nodes else nodes)
                   = List.length nodes) by (destruct (success res); auto using credit_length).
    rewrite Hlen in Ht. split; [|split].
    + cbn [map seq]. rewrite <- seq_shift, map_map, Hn. subst R; cbn [Sim.round_number].
      f_equal; [lia|]. apply map_ext. intros m. lia.
    + rewrite Ht, generate_transactions_length. subst R. cbn [filter Sim.consensus_result].
      destruct (success res); cbn [List.length]; [rewrite Nat2Z.inj_succ|]; nia.
    + rewrite Ha. destruct (success res); [apply credit_addresses|reflexivity].
Qed.

Lemma shape_returned (bc bc1 : Blockchain) {S} (r : ConsensusResult) (s : S) :
  round_shape bc (Returned r s bc1) ->
  height bc1 = height bc + (if success r then 1 else 0) /\
  pending_transactions bc1 = pending_transactions bc /\
  (is_valid bc = true -> is_valid bc1 = true).
Proof.
  intros Hs. split; [|split].
  - destruct Hs as [(_ & -> & ->)|(b & _ & Ha)]; [lia|].
    apply add_block_cases in Ha as [(-> & ->)|(-> & ->)]; [|lia].
    unfold height; cbn [chain set_chain]. rewrite length_app; cbn [List.length]. lia.
  - destruct Hs as [(_ & _ & ->)|(b & _ & Ha)]; [reflexivity|].
    apply add_block_cases in Ha as [(_ & ->)|(_ & ->)]; reflexivity.
  - intros Hv. exact (shape_valid bc bc1 (Returned r s bc1) Hs Hv eq_refl).
Qed.

Section RunShape.
Context {St : Type}
  (rr : St -> Blockchain -> list Transaction -> list string -> Env -> PyResult St).
Hypothesis Hshape : forall st bc txs nodes env, round_shape bc (rr st bc txs nodes env).

Lemma run_loop_heights inputs tpr addrs (k : nat) :
  forall i nodes (st : St) bc total rounds nodes' st' bc' total' rounds',
  Sim.run_loop rr inputs tpr addrs k i nodes st bc total rounds =
    Sim.LoopDone nodes' st' bc' total' rounds' ->
  exists new, rounds' = (rounds ++ new)%list /\
    height bc' = height bc +
      Z.of_nat (List.length (filter (fun r => success (Sim.consensus_result r)) new)) /\
    pending_transactions bc' = pending_transactions bc /\
    (is_valid bc = true -> is_valid bc' = true) /\
    (forall m r, nth_error new m = Some r ->
       Sim.chain_height r = height bc +
         Z.of_nat (List.length (filter (fun r => success (Sim.consensus_result r))
                                  (firstn (S m) new))) /\
       Sim.pending_txs r = Z.of_nat (List.length (pending_transactions bc))).
Proof.
  induction k as [|k IH]; intros i nodes st bc total rounds nodes' st' bc' total' rounds' E;
    cbn [Sim.run_loop] in E.
  - injection E as <- <- <- <- <-. exists []. rewrite app_nil_r. cbn.
    split; [reflexivity|]. split; [lia|]. split; [reflexivity|]. split; [auto|].
    intros [|m] r Hr; discriminate.
  - destruct (inputs i) as [draws env].
    destruct (rr st bc (Sim.generate_transactions nodes tpr draws) addrs env)
      as [res st1 bc1|e st1 bc1|] eqn:Er; [|discriminate|discriminate].
    pose proof (Hshape st bc (Sim.generate_transactions nodes tpr draws) addrs env) as Hs.
    rewrite Er in Hs. destruct (shape_returned _ _ _ _ Hs) as (Hh & Hp & Hv).
    apply IH in E as (new & -> & Hh' & Hp' & Hv' & Hr').
    set (R := Sim.mkRoundResult i res (height bc1)
                (Z.of_nat (List.length (pending_transactions bc1)))) in *.
    exists (R :: new). rewrite <- app_assoc. split; [reflexivity|].
    assert (Hc : forall l, Z.of_nat (List.length (filter (fun r => success (Sim.consensus_result r))
                                                    (R :: l))) =
                   (if success res then 1 else 0) +
                   Z.of_nat (List.length (filter (fun r => success (Sim.consensus_result r)) l))).
    { intros l. subst R. cbn [filter Sim.consensus_result].
      destruct (success res); cbn [List.length]; lia. }
    split; [rewrite Hc; lia|]. split; [congruence|]. split; [auto|].
    intros [|m] r Hr.
    + injection Hr as <-. subst R. cbn [Sim.chain_height Sim.pending_txs firstn].
      rewrite Hc, Hp. cbn. lia.
    + cbn [nth_error] in Hr. destruct (Hr' m r Hr) as (Hr1 & Hr2).
      rewrite firstn_cons, Hc. split; [lia|]. rewrite Hr2, Hp; reflexivity.
Qed.

End RunShape.

Lemma opt_eqb_some (a : string) (p : option string) :
  opt_eqb (Some a) p = true <-> p = Some a.
Proof.
  destruct p as [b|]; cbn; [|split; discriminate].
  rewrite String.eqb_eq. split; congruence.
Qed.

Lemma credit_none (p : option string) (nodes : list Sim.NetworkNode) :
  existsb (fun a => opt_eqb (Some a) p) (map Sim.address nodes) = false ->
  Sim.credit p nodes = nodes.
Proof.
  induction nodes as [|nd t IH]; intros Hx; [reflexivity|].
  cbn [map existsb] in Hx. apply orb_false_iff in Hx as [H1 H2].
  unfold Sim.credit in *. cbn [map]. rewrite H1, IH by exact H2. reflexivity.
Qed.

Lemma credit_sum (p : option string) (nodes : list Sim.NetworkNode) :
  NoDup (map Sim.address nodes) ->
  fold_right Z.add 0 (map Sim.blocks_produced (Sim.credit p nodes)) =
  fold_right Z.add 0 (map Sim.blocks_produced nodes) +
    (if existsb (fun a => opt_eqb (Some a) p) (map Sim.address nodes) then 1 else 0).
Proof.
  induction nodes as [|nd t IH]; intros Hn; [reflexivity|].
  cbn [map] in Hn. inversion Hn as [|? ? Hnd Ht]; subst.
  change (Sim.credit p (nd :: t))
    with ((if opt_eqb (Some (Sim.address nd)) p then Sim.bump nd else nd) :: Sim.credit p t).
  cbn [map existsb fold_right].
  destruct (opt_eqb (Some (Sim.address nd)) p) eqn:E; cbn [orb].
  - apply opt_eqb_some in E; subst p.
    rewrite credit_none; [cbn [Sim.blocks_produced Sim.bump]; lia|].
    apply Bool.not_true_iff_false. intros Hx. apply existsb_exists in Hx as (a & Ha & Hx).
    apply opt_eqb_some in Hx. injection Hx as Hx. subst a. contradiction.
  - rewrite IH by exact Ht. lia.
Qed.

Lemma run_loop_blocks_produced {St} rr inputs tpr addrs (k : nat) :
  forall i nodes (st : St) bc total rounds nodes' st' bc' total' rounds',
  NoDup (map Sim.address nodes) ->
  Sim.run_loop rr inputs tpr addrs k i nodes st bc total rounds =
    Sim.LoopDone nodes' st' bc' total' rounds' ->
  exists new, rounds' = (rounds ++ new)%list /\
    fold_right Z.add 0 (map Sim.blocks_produced nodes') =
    fold_right Z.add 0 (map Sim.blocks_produced nodes) +
      Z.of_nat (List.length
        (filter (fun r => success (Sim.consensus_result r) &&
                          existsb (fun a => opt_eqb (Some a) (proposer (Sim.consensus_result r)))
                            (map Sim.address nodes)) new)).
Proof.
  induction k as [|k IH]; intros i nodes st bc total rounds nodes' st' bc' total' rounds' Hn E;
    cbn [Sim.run_loop] in E.
  - injection E as <- <- <- <- <-. exists []. rewrite app_nil_r. cbn. split; [reflexivity|lia].
  - destruct (inputs i) as [draws env].
    destruct (rr st bc _ addrs env) as [res st1 bc1|e st1 bc1|]; [|discriminate|discriminate].
    assert (Ha : map Sim.address (if success res then Sim.credit (proposer res) nodes else nodes)
                 = map Sim.address nodes)
      by (destruct (success res); [apply credit_addresses|reflexivity]).
    apply IH in E as (new & -> & Hs); [|rewrite Ha; exact Hn].
    rewrite Ha in Hs.
    set (R := Sim.mkRoundResult i res (height bc1)
                (Z.of_nat (List.length (pending_transactions bc1)))) in *.
    exists (R :: new). rewrite <- app_assoc. split; [reflexivity|].
    rewrite Hs. subst R. cbn [filter Sim.consensus_result].
    destruct (success res); cbn [andb].
    + rewrite credit_sum by exact Hn.
      destruct (existsb _ _); cbn [List.length]; lia.
    + lia.
Qed.

(** X13. A returned [run] reports the given configuration (the defaults
    5 rounds and 3 transactions per round without one), exactly
    [num_rounds] rounds (none when it is not positive) numbered 1, 2, ...,
    and as processed transactions the number of successful rounds times
    the size of every batch: [txs_per_round] (0 if negative), or 0 when the
    simulator has fewer than two nodes.  The nodes keep their addresses, in
    order. *)
Theorem run_report_accounting {St} name rr nodes (st : St) bc config_arg inputs
    rep nodes' st' bc' :
  Sim.run name rr nodes st bc config_arg inputs = Sim.SimReturned rep nodes' st' bc' ->
  Sim.config rep = match config_arg with Some c => c | None => Sim.default_config end /\
  map Sim.round_number (Sim.rounds rep) =
    map Z.of_nat (seq 1 (Z.to_nat (Sim.num_rounds (Sim.config rep)))) /\
  Sim.successful_rounds rep + Sim.failed_rounds rep = Z.of_nat (List.length (Sim.rounds rep)) /\
  Sim.total_transactions_processed rep =
    Sim.successful_rounds rep *
      Z.of_nat (if Nat.ltb (List.length nodes) 2 then O
                else Z.to_nat (Sim.txs_per_round (Sim.config rep))) /\
  map Sim.address nodes' = map Sim.address nodes.
Proof.
  unfold Sim.run. intros E.
  set (cfg := match config_arg with Some c => c | None => Sim.default_config end) in *.
  destruct (Sim.run_loop rr inputs (Sim.txs_per_round cfg) _ _ 1 nodes st bc 0 [])
    as [nodes1 st1 bc1 total rounds|e nodes1 st1 bc1|] eqn:El; [|discriminate|discriminate].
  injection E as <- <- <- <-. cbn [Sim.config Sim.rounds Sim.successful_rounds
    Sim.failed_rounds Sim.total_transactions_processed].
  destruct (run_loop_accounting _ _ _ _ _ _ _ _ _ _ _ _ _ _ _ _ El) as (new & Er & Hn & Ht & Ha).
  cbn [app] in Er; subst new.
  split; [reflexivity|]. split; [|split; [lia|split; [rewrite Ht; lia|exact Ha]]].
  rewrite Hn, <- seq_shift, map_map. apply map_ext. intros m. lia.
Qed.

(** X14. For any protocol whose [run_round] either reports failure without
    a block and leaves the chain alone, or passes its block to [add_block]
    and reports what it returned (the four protocols do), a returned [run]
    ends with a chain higher by exactly the number of successful rounds and
    reports that height; a valid chain stays valid and the pending pool is
    untouched.  Each round's [chain_height] is the starting height plus the
    successful rounds up to and including it, and its [pending_txs] is the
    starting pool's size. *)
Theorem run_chain_heights {St} name
    (rr : St -> Blockchain -> list Transaction -> list string -> Env -> PyResult St)
    nodes st bc config_arg inputs rep nodes' st' bc' :
  (forall st bc txs nodes env, round_shape bc (rr st bc txs nodes env)) ->
  Sim.run name rr nodes st bc config_arg inputs = Sim.SimReturned rep nodes' st' bc' ->
  Sim.final_chain_height rep = height bc' /\
  height bc' = height bc + Sim.successful_rounds rep /\
  pending_transactions bc' = pending_transactions bc /\
  (is_valid bc = true -> is_valid bc' = true) /\
  (forall m r, nth_error (Sim.rounds rep) m = Some r ->
     Sim.chain_height r = height bc +
       Z.of_nat (List.length (filter (fun r => success (Sim.consensus_result r))
                                (firstn (S m) (Sim.rounds rep)))) /\
     Sim.pending_txs r = Z.of_nat (List.length (pending_transactions bc))).
Proof.
  intros Hs. unfold Sim.run. intros E.
  set (cfg := match config_arg with Some c => c | None => Sim.default_config end) in *.
  destruct (Sim.run_loop rr inputs (Sim.txs_per_round cfg) _ _ 1 nodes st bc 0 [])
    as [nodes1 st1 bc1 total rounds|e nodes1 st1 bc1|] eqn:El; [|discriminate|discriminate].
  injection E as <- <- <- <-. cbn [Sim.rounds Sim.successful_rounds Sim.final_chain_height].
  destruct (run_loop_heights rr Hs _ _ _ _ _ _ _ _ _ _ _ _ _ _ _ El)
    as (new & Er & Hh & Hp & Hv & Hr).
  cbn [app] in Er; subst new. auto.
Qed.

(** X15. When the simulator's nodes have distinct addresses, a returned
    [run] raises the nodes' total [blocks_produced] by the number of
    successful rounds whose proposer is the address of one of the nodes
    (each such round credits exactly that node); failed rounds, and
    successful ones whose proposer is no node's address, credit nobody. *)
Theorem run_blocks_produced {St} name rr nodes (st : St) bc config_arg inputs
    rep nodes' st' bc' :
  NoDup (map Sim.address nodes) ->
  Sim.run name rr nodes st bc config_arg inputs = Sim.SimReturned rep nodes' st' bc' ->
  fold_right Z.add 0 (map Sim.blocks_produced nodes') =
  fold_right Z.add 0 (map Sim.blocks_produced nodes) +
    Z.of_nat (List.length
      (filter (fun r => success (Sim.consensus_result r) &&
                        existsb (fun a => opt_eqb (Some a) (proposer (Sim.consensus_result r)))
                          (map Sim.address nodes)) (Sim.rounds rep))).
Proof.
  intros Hn. unfold Sim.run. intros E.
  set (cfg := match config_arg with Some c => c | None => Sim.default_config end) in *.
  destruct (Sim.run_loop rr inputs (Sim.txs_per_round cfg) _ _ 1 nodes st bc 0 [])
    as [nodes1 st1 bc1 total rounds|e nodes1 st1 bc1|] eqn:El; [|discriminate|discriminate].
  injection E as <- <- <- <-. cbn [Sim.rounds].
  destruct (run_loop_blocks_produced _ _ _ _ _ _ _ _ _ _ _ _ _ _ _ _ Hn El) as (new & Er & Hs).
  cbn [app] in Er; subst new. exact Hs.
Qed.


(** ** Rounds that always succeed *)

Lemma add_created_block bc txs_arg v now blk bc1 lb :
  latest_block bc = Some lb -> hash lb <> None ->
  create_next_block bc txs_arg v now = Some (blk, bc1) ->
  add_block bc1 (set_hash blk (Some (compute_hash blk))) =
    Some (true, set_chain bc1 (chain bc ++ [set_hash blk (Some (compute_hash blk))])%list).
Proof.
  intros Hl Hh Hc.
  assert (Hch : chain bc1 = chain bc).
  { unfold create_next_block in Hc; rewrite Hl in Hc. injection Hc as _ <-.
    destruct txs_arg; reflexivity. }
  assert (Hl1 : latest_block bc1 = Some lb) by (rewrite (latest_block_same_chain _ _ Hch); exact Hl).
  unfold create_next_block in Hc; rewrite Hl in Hc. injection Hc as <- _.
  unfold add_block. rewrite Hl1, Hch. cbn [previous_hash hash set_hash].
  rewrite compute_hash_set_hash.
  destruct (hash lb) as [h|]; [|congruence].
  destruct (String.eqb h EmptyString) eqn:He.
  - apply String.eqb_eq in He; subst h. cbn. rewrite String.eqb_refl. reflexivity.
  - cbn. rewrite !String.eqb_refl. reflexivity.
Qed.

Lemma add_block_true_latest (bc : Blockchain) (b : Block) bc' :
  add_block bc b = Some (true, bc') -> latest_block bc' = Some b /\ hash b <> None.
Proof.
  intros Ha. pose proof Ha as Hc.
  apply add_block_cases in Hc as [(_ & ->)|(E & _)]; [|discriminate]. split.
  - unfold latest_block; cbn [chain set_chain]. rewrite map_app. apply last_last.
  - unfold add_block in Ha. destruct (latest_block bc); [|discriminate].
    destruct (negb _); [discriminate|]. destruct (hash b); [congruence|discriminate].
Qed.

Lemma dpos_live_step st bc lb txs nodes env :
  DPoS.active_delegates st <> [] -> latest_block bc = Some lb -> hash lb <> None ->
  exists r st' bc', DPoS.run_round st bc txs nodes env = Returned r st' bc' /\
    success r = true /\ DPoS.active_delegates st' = DPoS.active_delegates st /\
    exists lb', latest_block bc' = Some lb' /\ hash lb' <> None.
Proof.
  intros Ha Hl Hh. unfold DPoS.run_round. rewrite (dpos_current_some st Ha).
  match goal with |- context [create_next_block bc (Some txs) ?v ?n] =>
    destruct (create_next_block bc (Some txs) v n) as [[blk bc1]|] eqn:Ec end.
  2: { unfold create_next_block in Ec; rewrite Hl in Ec; discriminate. }
  pose proof (add_created_block _ _ _ _ _ _ _ Hl Hh Ec) as Ea. rewrite Ea.
  do 3 eexists. split; [reflexivity|]. split; [reflexivity|]. split; [reflexivity|].
  apply add_block_true_latest in Ea as (Hl' & Hh'). eauto.
Qed.

Lemma filter_all {A} (f : A -> bool) (l : list A) :
  Forall (fun x => f x = true) l -> filter f l = l.
Proof. induction 1 as [|x l Hx _ IH]; cbn; [reflexivity|]. rewrite Hx, IH. reflexivity. Qed.

Section RunLive.
Context {St : Type}
  (rr : St -> Blockchain -> list Transaction -> list string -> Env -> PyResult St)
  (P : St -> Blockchain -> Prop).
Hypothesis Hlive : forall st bc txs addrs env, P st bc ->
  exists r st' bc', rr st bc txs addrs env = Returned r st' bc' /\
    success r = true /\ P st' bc'.

Lemma run_loop_live inputs tpr addrs (k : nat) :
  forall i nodes st bc total rounds, P st bc ->
  exists nodes' st' bc' total' new,
    Sim.run_loop rr inputs tpr addrs k i nodes st bc total rounds =
      Sim.LoopDone nodes' st' bc' total' (rounds ++ new)%list /\
    List.length new = k /\ Forall (fun r => success (Sim.consensus_result r) = true) new.
Proof.
  induction k as [|k IH]; intros i nodes st bc total rounds Hp; cbn [Sim.run_loop].
  - exists nodes, st, bc, total, []. rewrite app_nil_r. auto.
  - destruct (inputs i) as [draws env].
    destruct (Hlive st bc (Sim.generate_transactions nodes tpr draws) addrs env Hp)
      as (r & st1 & bc1 & Er & Hs & Hp1).
    rewrite Er, Hs.
    match goal with |- context [Sim.run_loop rr inputs tpr addrs k ?i' ?n' st1 bc1 ?t' ?r'] =>
      destruct (IH i' n' st1 bc1 t' r' Hp1) as (nodes' & st' & bc' & total' & new & E & Hl & Hf);
      rewrite E end.
    exists nodes', st', bc', total',
      (Sim.mkRoundResult i r (height bc1) (Z.of_nat (List.length (pending_transactions bc1))) :: new).
    rewrite <- app_assoc. split; [reflexivity|]. split; [cbn; lia|].
    constructor; [exact Hs|exact Hf].
Qed.

Lemma run_live name nodes st bc config_arg inputs :
  P st bc ->
  exists rep nodes' st' bc',
    Sim.run name rr nodes st bc config_arg inputs = Sim.SimReturned rep nodes' st' bc' /\
    Sim.failed_rounds rep = 0 /\
    Sim.successful_rounds rep = Z.of_nat (Z.to_nat (Sim.num_rounds (Sim.config rep))).
Proof.
  intros Hp. unfold Sim.run.
  set (cfg := match config_arg with Some c => c | None => Sim.default_config end).
  destruct (run_loop_live inputs (Sim.txs_per_round cfg) (map Sim.address (filter Sim.is_active nodes))
              (Z.to_nat (Sim.num_rounds cfg)) 1 nodes st bc 0 [] Hp)
    as (nodes' & st' & bc' & total' & new & E & Hl & Hf).
  rewrite E. do 4 eexists. split; [reflexivity|].
  cbn [app Sim.failed_rounds Sim.successful_rounds Sim.config].
  rewrite filter_all by exact Hf. rewrite Hl. lia.
Qed.

End RunLive.

(** X16. A simulation running PBFT, constructed over distinct addresses
    with any byzantine count the constructor accepts, on a chain whose
    latest block has a hash, returns its report (no round raises) and every
    round succeeds: [failed_rounds] is 0 and [successful_rounds] is the
    number of rounds, whatever the simulator's nodes and draws. *)
Theorem run_pbft_every_round_succeeds name addrs f js st0 nodes bc lb config_arg inputs :
  NoDup addrs -> PBFT.init addrs f js = inr st0 ->
  latest_block bc = Some lb -> hash lb <> None ->
  exists rep nodes' st' bc',
    Sim.run name PBFT.run_round nodes st0 bc config_arg inputs =
      Sim.SimReturned rep nodes' st' bc' /\
    Sim.failed_rounds rep = 0 /\
    Sim.successful_rounds rep = Z.of_nat (Z.to_nat (Sim.num_rounds (Sim.config rep))).
Proof.
  intros Hnd Hinit Hl Hh.
  apply (run_live PBFT.run_round
           (fun st bc => reach PBFT.run_round st0 st /\
                         exists lb, latest_block bc = Some lb /\ hash lb <> None)).
  - intros st1 bc1 txs addrs' env (Hr & lb' & Hl' & Hh').
    destruct (pbft_live_step addrs f js st0 st1 bc1 lb' txs addrs' env Hnd Hinit Hr Hl' Hh')
      as (r & st' & bc' & E & Hs & _ & _).
    exists r, st', bc'. split; [exact E|]. split; [exact Hs|].
    split; [exact (reach_returned _ _ _ _ _ _ _ _ _ _ Hr E)|].
    pose proof (pbft_shape st1 bc1 txs addrs' env) as Sh. rewrite E in Sh.
    destruct Sh as [(_ & Hf & _)|(b & _ & Ha)]; [congruence|].
    rewrite Hs in Ha. apply add_block_true_latest in Ha as (Hl2 & Hh2). eauto.
  - split; [constructor|eauto].
Qed.

(** X17. A simulation running DPoS with at least one active delegate, on
    a chain whose latest block has a hash, returns its report (no round
    raises) and every round succeeds: [failed_rounds] is 0 and
    [successful_rounds] is the number of rounds. *)
Theorem run_dpos_every_round_succeeds name nodes st bc lb config_arg inputs :
  DPoS.active_delegates st <> [] -> latest_block bc = Some lb -> hash lb <> None ->
  exists rep nodes' st' bc',
    Sim.run name DPoS.run_round nodes st bc config_arg inputs =
      Sim.SimReturned rep nodes' st' bc' /\
    Sim.failed_rounds rep = 0 /\
    Sim.successful_rounds rep = Z.of_nat (Z.to_nat (Sim.num_rounds (Sim.config rep))).
Proof.
  intros Ha Hl Hh.
  apply (run_live DPoS.run_round
           (fun st bc => DPoS.active_delegates st <> [] /\
                         exists lb, latest_block bc = Some lb /\ hash lb <> None)).
  - intros st1 bc1 txs addrs env (Ha1 & lb1 & Hl1 & Hh1).
    destruct (dpos_live_step st1 bc1 lb1 txs addrs env Ha1 Hl1 Hh1)
      as (r & st' & bc' & E & Hs & Ha' & Hlb).
    exists r, st', bc'. split; [exact E|]. split; [exact Hs|]. split; [congruence|exact Hlb].
  - split; [exact Ha|eauto].
Qed.

End Properties.

(** * Instances on concrete inputs *)

(** ** Witnesses: the theorems applied where their hypotheses hold *)

Lemma add_block_admission_gate_witness :
  latest_block chain0 = Some genesis /\
  add_block chain0 blk1 = Some (true, set_chain chain0 (chain chain0 ++ [blk1])%list) /\
  height (set_chain chain0 (chain chain0 ++ [blk1])%list) = height chain0 + 1.
Proof.
  assert (Hl : latest_block chain0 = Some genesis) by reflexivity.
  split; [exact Hl|].
  apply (proj2 (add_block_admission_gate chain0 blk1 genesis Hl)); vm_compute; reflexivity.
Defined.

Lemma add_block_ignores_index_witness :
  index blk7 <> height chain0 /\
  add_block chain0 blk7 = Some (true, set_chain chain0 (chain chain0 ++ [blk7])%list).
Proof.
  assert (Hi : index blk7 <> height chain0) by (vm_compute; discriminate).
  split; [exact Hi|].
  apply (add_block_ignores_index chain0 blk7 genesis);
    [reflexivity|vm_compute; reflexivity|vm_compute; reflexivity|exact Hi].
Defined.

Lemma mine_meets_difficulty_witness :
  mine 20 1 blk1 <> None /\
  (forall h b', mine 20 1 blk1 = Some (h, b') -> hash b' = Some h) /\
  mine 1 0 blk1 = Some (compute_hash blk1, set_hash blk1 (Some (compute_hash blk1))).
Proof.
  split; [vm_compute; discriminate|]. split.
  - intros h b' E. apply (proj1 (mine_meets_difficulty 20 1 blk1) h b' E).
  - apply (proj2 (mine_meets_difficulty 1 0 blk1) 0%nat); reflexivity.
Defined.

Lemma pbft_init_tolerance_witness :
  PBFT.init nodes7 3 [3; 0]%nat = inl ValueError /\
  exists st, PBFT.init nodes7 2 [3; 0]%nat = inr st /\ PBFT.quorum st = 5.
Proof.
  apply (proj2 (proj2 (proj2 (pbft_init_tolerance nodes7 2 [3; 0]%nat)))). reflexivity.
Defined.

Lemma pbft_liveness_7_2_witness :
  exists st0, PBFT.init nodes7 2 [3; 0]%nat = inr st0 /\
  exists r st' bc',
    PBFT.run_round st0 chain0 [tx1] nodes7 env0 = Returned r st' bc' /\
    success r = true /\ rounds r = 3 /\
    exists b, block r = Some b /\ chain bc' = (chain chain0 ++ [b])%list.
Proof.
  eexists; split; [reflexivity|].
  eapply (pbft_liveness_7_2 nodes7 [3; 0]%nat _ _ chain0 genesis [tx1] nodes7 env0).
  - reflexivity.
  - repeat constructor; cbn; intuition discriminate.
  - reflexivity.
  - apply reach_init.
  - reflexivity.
  - vm_compute; discriminate.
Defined.

Lemma dpos_round_robin_witness :
  chain chain0 <> [] /\
  Permutation
    (map outcome_proposer
       (run_seq (fun s b e => DPoS.run_round s b [] [] e)
          (DPoS.init votes4 3 [1; 0]%nat) chain0 [env0; env0; env0]))
    (map Some (DPoS.active_delegates (DPoS.init votes4 3 [1; 0]%nat))).
Proof.
  assert (Hc : chain chain0 <> []) by (vm_compute; discriminate).
  split; [exact Hc|].
  destruct (dpos_round_robin votes4 3 [1; 0]%nat (DPoS.init votes4 3 [1; 0]%nat) chain0
              [] [] [env0; env0; env0] (reach_init _ _) Hc) as (_ & _ & _ & _ & P).
  apply P. reflexivity.
Defined.

Lemma is_valid_append_and_tamper_witness :
  is_valid chain1 = true /\
  (is_valid (set_chain chain1 [genesis; set_nonce blk1 5]) = true <->
   sha256 (block_data (set_nonce blk1 5)) = sha256 (block_data blk1)).
Proof.
  destruct is_valid_append_and_tamper as (Hm & Hn & _ & _ & _).
  assert (Hv : is_valid chain1 = true)
    by (apply (Hm chain0 blk1 chain1); vm_compute; reflexivity).
  split; [exact Hv|].
  exact (proj2 (Hn chain1 genesis [] blk1 [] 5 eq_refl Hv ltac:(vm_compute; discriminate))).
Defined.

Lemma create_next_block_then_add_witness :
  latest_block chain0 = Some genesis /\
  create_next_block chain0 (Some [tx1]) (Some "v1"%string) 3 =
    Some (mkBlock 1 3 [tx1] (opt_str (hash genesis)) 0 (Some "v1"%string) None, chain0) /\
  add_block chain0 blk1 = Some (true, chain1).
Proof.
  assert (Hl : latest_block chain0 = Some genesis) by reflexivity.
  assert (Hc : create_next_block chain0 (Some [tx1]) (Some "v1"%string) 3 =
    Some (mkBlock 1 3 [tx1] (opt_str (hash genesis)) 0 (Some "v1"%string) None, chain0))
    by (vm_compute; reflexivity).
  split; [exact Hl|]. split; [exact Hc|].
  destruct (create_next_block_then_add chain0 _ _ _ _ _ genesis Hl Hc) as (_ & _ & _ & Ha & _).
  apply Ha. vm_compute; discriminate.
Defined.

Lemma pending_pool_roundtrip_witness :
  chain chain0 <> [] /\
  exists blk bc1,
    create_next_block (fold_left add_transaction [tx1; tx2] chain0) None (Some "v1"%string) 3
      = Some (blk, bc1) /\
    transactions blk = [tx1; tx2] /\ pending_transactions bc1 = [].
Proof.
  assert (Hc : chain chain0 <> []) by (vm_compute; discriminate).
  split; [exact Hc|].
  destruct (proj1 (pending_pool_roundtrip chain0 [tx1; tx2] (Some "v1"%string) 3 Hc))
    as (blk & bc1 & E & Ht & Hp & _).
  exists blk, bc1. split; [exact E|]. split; [exact Ht|exact Hp].
Defined.

Lemma mine_first_nonce_witness :
  exists h b', mine 20 1 blk1 = Some (h, b') /\
  exists k, (k < 20)%nat /\ b' = set_hash (set_nonce blk1 (nonce blk1 + Z.of_nat k)) (Some h).
Proof.
  destruct (mine 20 1 blk1) as [[h b']|] eqn:E; [|vm_compute in E; discriminate].
  exists h, b'. split; [reflexivity|].
  destruct (mine_first_nonce 20 1 blk1 h b' E) as (k & Hk & Eb & _). eauto.
Defined.

Lemma pbft_liveness_witness :
  exists st0, PBFT.init nodes4 1 [2]%nat = inr st0 /\
  exists r st' bc',
    PBFT.run_round st0 chain0 [tx1] nodes4 env0 = Returned r st' bc' /\
    success r = true /\ rounds r = 3 /\
    exists b, block r = Some b /\ chain bc' = (chain chain0 ++ [b])%list.
Proof.
  destruct (PBFT.init nodes4 1 [2]%nat) as [e|st0] eqn:Ei; [vm_compute in Ei; discriminate|].
  exists st0. split; [reflexivity|].
  assert (Hnd : NoDup nodes4) by (repeat constructor; cbn; intuition discriminate).
  exact (pbft_liveness nodes4 1 [2]%nat st0 st0 chain0 genesis [tx1] nodes4 env0 Hnd Ei
           (reach_init _ _) eq_refl ltac:(vm_compute; discriminate)).
Defined.



Lemma dpos_block_counters_witness :
  exists r st' bc',
    DPoS.run_round (DPoS.init votes4 3 [1; 0]%nat) chain0 [tx1] [] env0 = Returned r st' bc' /\
    success r = true /\
    fold_right Z.add 0 (map (fun kv => DPoS.blocks_produced (snd kv)) (DPoS.candidates st')) =
    fold_right Z.add 0 (map (fun kv => DPoS.blocks_produced (snd kv))
                          (DPoS.candidates (DPoS.init votes4 3 [1; 0]%nat))) + 1.
Proof.
  destruct (DPoS.run_round (DPoS.init votes4 3 [1; 0]%nat) chain0 [tx1] [] env0)
    as [r st' bc'|e st' bc'|] eqn:E; [|vm_compute in E; discriminate..].
  assert (Hs : success r = true) by (vm_compute in E; injection E as <- _ _; reflexivity).
  destruct (dpos_block_counters votes4 3 [1; 0]%nat _ chain0 [tx1] [] env0 r st' bc'
              (reach_init _ _) E) as (_ & Hsum & _).
  rewrite Hs in Hsum. exists r, st', bc'. auto.
Defined.

Lemma pow_round_appends_mined_block_witness :
  exists r st' bc',
    PoW.run_round 20 (PoW.mkPoW 1) chain0 [tx1] nodes7 env0 = Returned r st' bc' /\
    success r = true /\ exists miner, In miner nodes7 /\ proposer r = Some miner.
Proof.
  destruct (PoW.run_round 20 (PoW.mkPoW 1) chain0 [tx1] nodes7 env0)
    as [r st' bc'|e st' bc'|] eqn:E; [|vm_compute in E; discriminate..].
  destruct (pow_round_appends_mined_block 20 (PoW.mkPoW 1) chain0 [tx1] nodes7 env0 genesis
              r st' bc' eq_refl ltac:(vm_compute; discriminate) E)
    as (_ & _ & Hn).
  destruct (Hn ltac:(discriminate)) as (miner & blk & h & Hin & Hs & Hp & _).
  exists r, st', bc'. eauto.
Defined.

Lemma run_report_accounting_witness :
  exists rep nodes' st' bc',
    Sim.run "DPoS"%string DPoS.run_round sim_nodes3 (DPoS.init votes4 3 [1; 0]%nat) chain0
      (Some config2) inputs0 = Sim.SimReturned rep nodes' st' bc' /\
    map Sim.round_number (Sim.rounds rep) = [1; 2] /\
    Sim.total_transactions_processed rep = Sim.successful_rounds rep * 2.
Proof.
  destruct (Sim.run "DPoS"%string DPoS.run_round sim_nodes3 (DPoS.init votes4 3 [1; 0]%nat)
              chain0 (Some config2) inputs0)
    as [rep nodes' st' bc'|e nodes' st' bc'|] eqn:E; [|vm_compute in E; discriminate..].
  exists rep, nodes', st', bc'. split; [reflexivity|].
  destruct (run_report_accounting _ _ _ _ _ _ _ rep nodes' st' bc' E) as (Hc & Hn & _ & Ht & _).
  rewrite Hc in Hn, Ht. split; [exact Hn|exact Ht].
Defined.

Lemma run_chain_heights_witness :
  exists rep nodes' st' bc',
    Sim.run "DPoS"%string DPoS.run_round sim_nodes3 (DPoS.init votes4 3 [1; 0]%nat) chain0
      (Some config2) inputs0 = Sim.SimReturned rep nodes' st' bc' /\
    height bc' = height chain0 + Sim.successful_rounds rep /\ is_valid bc' = true.
Proof.
  destruct (Sim.run "DPoS"%string DPoS.run_round sim_nodes3 (DPoS.init votes4 3 [1; 0]%nat)
              chain0 (Some config2) inputs0)
    as [rep nodes' st' bc'|e nodes' st' bc'|] eqn:E; [|vm_compute in E; discriminate..].
  exists rep, nodes', st', bc'. split; [reflexivity|].
  destruct (run_chain_heights _ _ _ _ _ _ _ rep nodes' st' bc' dpos_shape E)
    as (_ & Hh & _ & Hv & _).
  split; [exact Hh|]. apply Hv. vm_compute; reflexivity.
Defined.

Lemma run_blocks_produced_witness :
  NoDup (map Sim.address sim_nodes3) /\
  exists rep nodes' st' bc',
    Sim.run "DPoS"%string DPoS.run_round sim_nodes3 (DPoS.init votes4 3 [1; 0]%nat) chain0
      (Some config2) inputs0 = Sim.SimReturned rep nodes' st' bc' /\
    fold_right Z.add 0 (map Sim.blocks_produced nodes') =
    fold_right Z.add 0 (map Sim.blocks_produced sim_nodes3) +
      Z.of_nat (List.length
        (filter (fun r => success (Sim.consensus_result r) &&
                          existsb (fun a => opt_eqb (Some a) (proposer (Sim.consensus_result r)))
                            (map Sim.address sim_nodes3)) (Sim.rounds rep))).
Proof.
  assert (Hnd : NoDup (map Sim.address sim_nodes3))
    by (repeat constructor; cbn; intuition discriminate).
  split; [exact Hnd|].
  destruct (Sim.run "DPoS"%string DPoS.run_round sim_nodes3 (DPoS.init votes4 3 [1; 0]%nat)
              chain0 (Some config2) inputs0)
    as [rep nodes' st' bc'|e nodes' st' bc'|] eqn:E; [|vm_compute in E; discriminate..].
  exists rep, nodes', st', bc'. split; [reflexivity|].
  exact (run_blocks_produced _ _ _ _ _ _ _ rep nodes' st' bc' Hnd E).
Defined.

Lemma run_pbft_every_round_succeeds_witness :
  exists st0, PBFT.init nodes4 1 [2]%nat = inr st0 /\
  exists rep nodes' st' bc',
    Sim.run "PBFT"%string PBFT.run_round sim_nodes3 st0 chain0 (Some config2) inputs0 =
      Sim.SimReturned rep nodes' st' bc' /\
    Sim.failed_rounds rep = 0 /\
    Sim.successful_rounds rep = Z.of_nat (Z.to_nat (Sim.num_rounds (Sim.config rep))).
Proof.
  destruct (PBFT.init nodes4 1 [2]%nat) as [e|st0] eqn:Ei; [vm_compute in Ei; discriminate|].
  exists st0. split; [reflexivity|].
  assert (Hnd : NoDup nodes4) by (repeat constructor; cbn; intuition discriminate).
  exact (run_pbft_every_round_succeeds "PBFT"%string nodes4 1 [2]%nat st0 sim_nodes3 chain0
           genesis (Some config2) inputs0 Hnd Ei eq_refl ltac:(vm_compute; discriminate)).
Defined.

Lemma run_dpos_every_round_succeeds_witness :
  DPoS.active_delegates (DPoS.init votes4 3 [1; 0]%nat) <> [] /\
  exists rep nodes' st' bc',
    Sim.run "DPoS"%string DPoS.run_round sim_nodes3 (DPoS.init votes4 3 [1; 0]%nat) chain0
      (Some config2) inputs0 = Sim.SimReturned rep nodes' st' bc' /\
    Sim.failed_rounds rep = 0 /\
    Sim.successful_rounds rep = Z.of_nat (Z.to_nat (Sim.num_rounds (Sim.config rep))).
Proof.
  assert (Ha : DPoS.active_delegates (DPoS.init votes4 3 [1; 0]%nat) <> [])
    by (vm_compute; discriminate).
  split; [exact Ha|].
  exact (run_dpos_every_round_succeeds "DPoS"%string sim_nodes3 _ chain0 genesis (Some config2)
           inputs0 Ha eq_refl ltac:(vm_compute; discriminate)).
Defined.

(** ** Counterexamples to the claims as stated *)

(** C1: with a negative [age_factor] the total weight turns negative after
    a few rounds, and [random.choices] raises instead of the call returning
    a result. *)
Lemma pos_round_raises :
  exists st0, PoS.init [("a", 1); ("b", 1)]%string%Q (-1) = inr st0 /\
  match run_seq (fun s b e => PoS.run_round s b [] [] e) st0 chain0
          [env_pos; env_pos; env_pos; env_pos] with
  | [Returned _ _ _; Returned _ _ _; Returned _ _ _; Raised ValueError _ _] => True
  | _ => False
  end.
Proof. eexists; split; [reflexivity|]. vm_compute. exact I. Qed.

(** C3: after one accepted append, changing the genesis block's nonce, or
    the amount of a transaction of block 1 (its [tx_id] kept), leaves
    [is_valid] true. *)
Lemma is_valid_misses_tampering :
  add_block chain0 blk1 = Some (true, chain1) /\ is_valid chain1 = true /\
  is_valid (set_chain chain1 [set_nonce genesis 1; blk1]) = true /\
  is_valid (set_chain chain1 [genesis; set_transactions blk1 [tx1_edited]]) = true.
Proof. vm_compute. repeat split. Qed.

(** C4: [f = -1] satisfies [f <= floor((n-1)/3)] yet construction raises. *)
Lemma pbft_init_negative_f :
  PBFT.init ["a"]%string (-1) [] = inl ValueError /\
  -1 <= (Z.of_nat (List.length ["a"]%string) - 1) / 3.
Proof. split; [reflexivity|vm_compute; discriminate]. Qed.

(** C7: with no delegate elected, [run_round] returns early and
    [round_index] stays 0. *)
Lemma dpos_no_delegates_keeps_round_index :
  match DPoS.run_round (DPoS.init [] 3 []) chain0 [] [] env0 with
  | Returned r st' _ =>
      success r = false /\ DPoS.round_index st' = DPoS.round_index (DPoS.init [] 3 [])
  | _ => False
  end.
Proof. vm_compute. split; reflexivity. Qed.

(** C8: on a chain whose tip has no hash, PoS proposes a block that
    [add_block] rejects, and the failed result still carries that block. *)
Lemma pos_failed_result_carries_block :
  exists st, PoS.init [("a", 1)]%string%Q 0 = inr st /\
  match PoS.run_round st chain_unhashed [] [] env_pos with
  | Returned r _ _ => success r = false /\ block r <> None
  | _ => False
  end.
Proof. eexists; split; [reflexivity|]. vm_compute. split; [reflexivity|discriminate]. Qed.
